(** * Black-Scholes-Merton option modelling: the notebook's pricing code

    A shallow embedding of the notebook
    [Finance/.ipynb_checkpoints/python-black-scholes-merton-checkpoint.ipynb].
    The notebook defines one function, [bsm], the terminal price of a stock
    under geometric Brownian motion, and applies it to one draw or to an
    array of draws of NumPy's standard normal generator.

    Numbers.  The notebook computes with binary64 floats.  Three carriers
    are used here.  Everything that depends only on the shape of the
    computation is stated over an arbitrary carrier [F] with arbitrary
    operations (class [Arith]), so it holds for any rounding behaviour.
    What the formula means is stated over [num]: the real numbers, without
    rounding or overflow, extended by the not-a-number value that [np.sqrt]
    produces on a negative argument.  What the code returns where rounding,
    overflow and underflow matter, and what it does to the state of NumPy,
    is stated over binary64 itself. *)

From Stdlib Require Import Floats.
From Stdlib Require Import String.
From Stdlib Require Import Reals Lra Lia List ZArith ClassicalEpsilon.
Import ListNotations.

Set Implicit Arguments.

(** ** The arithmetic the code uses *)

(** The scalar operations that occur in [bsm]: [+], [-], [*], [np.exp],
    [np.sqrt] on one element, and the literal [0.5]. *)
Class Arith (F : Type) : Type := {
  f_add : F -> F -> F;
  f_sub : F -> F -> F;
  f_mul : F -> F -> F;
  f_exp : F -> F;
  f_sqrt : F -> F;
  f_half : F
}.

Declare Scope np_scope.
Delimit Scope np_scope with np.

Infix "+" := f_add : np_scope.
Infix "-" := f_sub : np_scope.
Infix "*" := f_mul : np_scope.

(** ** NumPy values: a scalar or a one-dimensional array *)

Inductive ndvalue (F : Type) : Type :=
| Scalar (x : F)
| Array (xs : list F).

Arguments Scalar {F} x.
Arguments Array {F} xs.

(** A universal function of NumPy applies its scalar operation to a scalar,
    and to every element of an array. *)
Definition ufunc {F : Type} (f : F -> F) (v : ndvalue F) : ndvalue F :=
  match v with
  | Scalar x => Scalar (f x)
  | Array xs => Array (map f xs)
  end.

(** Broadcasting of a binary operation whose left operand is a scalar. *)
Definition broadcast {F : Type} (op : F -> F -> F) (a : F) (v : ndvalue F)
  : ndvalue F :=
  ufunc (op a) v.

Definition np_exp {F : Type} `{Arith F} : ndvalue F -> ndvalue F :=
  ufunc f_exp.

(** [np.sqrt] is only ever applied to the scalar [t]. *)
Definition np_sqrt {F : Type} `{Arith F} : F -> F := f_sqrt.

Notation "a +: v" := (broadcast f_add a v)
  (at level 50, left associativity) : np_scope.
Notation "a *: v" := (broadcast f_mul a v)
  (at level 40, left associativity) : np_scope.

(** The elements of a value, and its element at an index; a scalar has the
    single index 0. *)
Definition elements {F : Type} (v : ndvalue F) : list F :=
  match v with
  | Scalar x => [x]
  | Array xs => xs
  end.

Definition item {F : Type} (v : ndvalue F) (i : nat) : option F :=
  nth_error (elements v) i.

(** ** The market model

    [def bsm(s_0, r, sigma, t, z):
         return s_0 * np.exp((r - 0.5*sigma*sigma)*t + sigma * np.sqrt(t)*z)]

    The notebook passes Python numbers for [s_0], [r], [sigma] and [t], and
    for [z] either one draw or an array of draws. *)
Definition bsm {F : Type} `{Arith F} (s_0 r sigma t : F) (z : ndvalue F)
  : ndvalue F :=
  (s_0 *: np_exp ((r - f_half * sigma * sigma) * t +: sigma * np_sqrt t *: z))%np.

(** The same expression on one element. *)
Definition bsm1 {F : Type} `{Arith F} (s_0 r sigma t z : F) : F :=
  (s_0 * f_exp ((r - f_half * sigma * sigma) * t + sigma * f_sqrt t * z))%np.

(** ** The value carrier: reals and not-a-number *)

Inductive num : Type :=
| Fin (x : R)
| NaN.

Definition lift2 (op : R -> R -> R) (a b : num) : num :=
  match a, b with
  | Fin x, Fin y => Fin (op x y)
  | _, _ => NaN
  end.

Definition num_exp (a : num) : num :=
  match a with
  | Fin x => Fin (exp x)
  | NaN => NaN
  end.

(** [np.sqrt] of a negative number is not-a-number (with a warning, which is
    not an exception). *)
Definition num_sqrt (a : num) : num :=
  match a with
  | Fin x => if Rcase_abs x then NaN else Fin (sqrt x)
  | NaN => NaN
  end.

#[export] Instance num_Arith : Arith num := {|
  f_add := lift2 Rplus;
  f_sub := lift2 Rminus;
  f_mul := lift2 Rmult;
  f_exp := num_exp;
  f_sqrt := num_sqrt;
  f_half := Fin (1 / 2)
|}.

Definition num_div : num -> num -> num := lift2 Rdiv.
Definition num_sq (a : num) : num := lift2 Rmult a a.

(** The terminal price as the model states it,
    [S = S_0 * exp((r - sigma^2 / 2) * T + sigma * sqrt(T) * Z)],
    on the same carrier. *)
Definition terminal_price (s_0 r sigma t z : num) : num :=
  (s_0 * f_exp ((r - num_div (num_sq sigma) (Fin 2)) * t
                + sigma * f_sqrt t * z))%np.

(** The same formula on real numbers. *)
Definition gbm_price (s_0 r sigma t z : R) : R :=
  (s_0 * exp ((r - sigma ^ 2 / 2) * t + sigma * sqrt t * z))%R.

(** ** Effects: the interpreter state, exceptions, and calls

    A Python call runs in the state of the interpreter and either returns a
    value or raises.  [error] lists the two kinds of error of the pricing
    interface. *)

Inductive error : Type :=
| InvalidParameter
| NumericDomainError.

Inductive outcome (A : Type) : Type :=
| Returns (a : A)
| Raises (e : error).

Arguments Returns {A} a.
Arguments Raises {A} e.

(** A computation over a state [W]. *)
Definition M (W A : Type) : Type := W -> outcome A * W.

Definition ret {W A : Type} (a : A) : M W A := fun w => (Returns a, w).

Definition raise {W A : Type} (e : error) : M W A := fun w => (Raises e, w).

Definition bind {W A B : Type} (m : M W A) (k : A -> M W B) : M W B :=
  fun w =>
    match m w with
    | (Returns a, w') => k a w'
    | (Raises e, w') => (Raises e, w')
    end.

Notation "x <- m ;; k" := (bind m (fun x => k))
  (at level 61, m at next level, right associativity).


(** The call [bsm(s_0, r, sigma, t, z)]: the body is one [return] of an
    expression built from arithmetic and NumPy's universal functions. *)
Definition call_bsm {W F : Type} `{Arith F} (s_0 r sigma t : F)
  (z : ndvalue F) : M W (ndvalue F) :=
  ret (bsm s_0 r sigma t z).

(** The state the notebook's cells run in: NumPy's global generator, which
    from its seed yields a fixed stream of draws and keeps its position in
    it, and the printed output. *)
Record world : Type := {
  rng_stream : nat -> R;
  rng_pos : nat;
  stdout : list (ndvalue num)
}.

Definition advance (n : nat) (w : world) : world :=
  {| rng_stream := rng_stream w;
     rng_pos := rng_pos w + n;
     stdout := stdout w |}.

Definition draws (w : world) (n : nat) : list num :=
  map (fun i => Fin (rng_stream w (rng_pos w + i))) (seq 0 n).

(** [np.random.standard_normal()] *)
Definition standard_normal_one : M world (ndvalue num) :=
  fun w => (Returns (Scalar (Fin (rng_stream w (rng_pos w)))), advance 1 w).

(** [np.random.standard_normal(n)] *)
Definition standard_normal (n : nat) : M world (ndvalue num) :=
  fun w => (Returns (Array (draws w n)), advance n w).

Definition print (v : ndvalue num) : M world unit :=
  fun w =>
    (Returns tt,
     {| rng_stream := rng_stream w;
        rng_pos := rng_pos w;
        stdout := stdout w ++ [v] |}).

(** [print bsm(100, 0.03, 0.4, 3.0/12, np.random.standard_normal())] *)
Definition cell_scalar : M world unit :=
  z <- standard_normal_one ;;
  v <- call_bsm (Fin 100) (Fin (3 / 100)) (Fin (4 / 10)) (Fin (3 / 12)) z ;;
  print v.

(** [n = 10
     print bsm(100, 0.03, 0.4, 3.0/12, np.random.standard_normal(n))] *)
Definition cell_vector : M world unit :=
  let n := 10%nat in
  z <- standard_normal n ;;
  v <- call_bsm (Fin 100) (Fin (3 / 100)) (Fin (4 / 10)) (Fin (3 / 12)) z ;;
  print v.

Definition world0 : world :=
  {| rng_stream := fun _ => 0%R; rng_pos := 0; stdout := [] |}.

(** Values that are real numbers, and strictly positive ones. *)
Definition finite (a : num) : Prop :=
  match a with
  | Fin _ => True
  | NaN => False
  end.

Definition positive (a : num) : Prop :=
  match a with
  | Fin y => (0 < y)%R
  | NaN => False
  end.

(** ** The pricing interface around [bsm]

    The notebook stops at [bsm]: the cell that estimates the option value is
    empty, and the body of [call] is the placeholder [??].  The operations
    below are therefore taken from the specification of the interface. *)

(** The density of the standard normal distribution. *)
Definition std_normal_pdf (x : R) : R :=
  (/ sqrt (2 * PI) * exp (- (x * x) / 2))%R.

(** [F] is the cumulative distribution function of the density [f]: an
    antiderivative of [f] that vanishes at minus infinity. *)
Definition is_cdf_of (f F : R -> R) : Prop :=
  (forall x : R, derivable_pt_lim F x (f x))
  /\ (forall eps : R, (0 < eps)%R ->
        exists m : R, forall x : R, (x < m)%R -> (Rabs (F x) < eps)%R).

(** Modelled from the spec: [standard_normal_cdf], the function Phi of the
    closed form, which the notebook imports as [norm] from [scipy.stats]
    and never calls. *)
Definition standard_normal_cdf : R -> R :=
  epsilon (inhabits (fun _ : R => 0%R)) (is_cdf_of std_normal_pdf).

(** The Riemann integral of [f] from [a] to [b], where it exists. *)
Definition integral (f : R -> R) (a b : R) : R :=
  epsilon (inhabits 0%R)
    (fun v => exists pr : Riemann_integrable f a b, RiemannInt pr = v).

Definition pdf_integral (a b : R) : R := integral std_normal_pdf a b.

(** The mass of the density to the left of the origin, cut at [-n]. *)
Definition left_mass (n : nat) : R := pdf_integral (- INR n) 0.

(** An exponential that dominates the density: [-x^2/2 <= x + 1/2]. *)
Definition pdf_bound (x : R) : R := (/ sqrt (2 * PI) * exp (x + 1 / 2))%R.

(** Shifting the density by [a] multiplies it by [tilt a]. *)
Definition tilt (a y : R) : R := exp (a * y - a * a / 2).

(** The gap between a tilted distribution function and the shifted one. *)
Definition gap (F : R -> R) (a y : R) : R :=
  (tilt a y * F y - F (y - a))%R.

(** Modelled from the spec: the check made at the boundary of each public
    operation, of which the notebook has none.  A spot, volatility,
    maturity or strike that is not positive, or a sample count below one,
    raises [InvalidParameter]. *)
Definition check_positive {W : Type} (x : R) : M W unit :=
  if Rle_dec x 0 then raise InvalidParameter else ret tt.

(** Modelled from the spec: the check of the sample count, [n >= 1]. *)
Definition check_count {W : Type} (n : Z) : M W unit :=
  if (n <? 1)%Z then raise InvalidParameter else ret tt.

(** The two arguments of Phi in the closed form, as the notebook's text
    gives them:
    [d1 = (ln(S/K) + (r + sigma^2/2) t) / (sigma sqrt t)] and
    [d2 = d1 - sigma sqrt t]. *)
Definition d1 (s r sigma t k : R) : R :=
  ((ln (s / k) + (r + sigma ^ 2 / 2) * t) / (sigma * sqrt t))%R.

Definition d2 (s r sigma t k : R) : R :=
  (d1 s r sigma t k - sigma * sqrt t)%R.

(** The closed form of the notebook's text,
    [C = Phi(d1) S - Phi(d2) K e^(-r t)]. *)
Definition call_formula (s r sigma t k : R) : R :=
  (standard_normal_cdf (d1 s r sigma t k) * s
   - standard_normal_cdf (d2 s r sigma t k) * k * exp (- r * t))%R.

(** Modelled from the spec: the body of [call(s, r, sigma, t, k)], the
    interface's [closed_form_call_price], for which the notebook has only
    the header, the placeholder [??] and one call. *)
Definition call {W : Type} (s r sigma t k : R) : M W num :=
  _ <- check_positive s ;;
  _ <- check_positive sigma ;;
  _ <- check_positive t ;;
  _ <- check_positive k ;;
  ret (Fin (call_formula s r sigma t k)).

(** Modelled from the spec: [simulate_terminal_prices], which the notebook
    writes inline as [bsm(..., np.random.standard_normal(n))] without the
    checks. *)
Definition simulate_terminal_prices (s_0 r sigma t : R) (n : Z)
  : M world (list num) :=
  _ <- check_positive s_0 ;;
  _ <- check_positive sigma ;;
  _ <- check_positive t ;;
  _ <- check_count n ;;
  z <- standard_normal (Z.to_nat n) ;;
  prices <- call_bsm (Fin s_0) (Fin r) (Fin sigma) (Fin t) z ;;
  ret (elements prices).

(** The payoff of the call at one terminal price, [max(S - K, 0)]. *)
Definition payoff (k : R) (s : num) : num :=
  lift2 Rmax (lift2 Rminus s (Fin k)) (Fin 0).

Definition num_sum (xs : list num) : num :=
  fold_right (lift2 Rplus) (Fin 0) xs.

(** Modelled from the spec: the option value estimator, the content of the
    notebook's empty cell,
    [V = e^(-r t) * (1/n) * sum of max(S_i - K, 0)]. *)
Definition option_value (r t k : R) (prices : list num) : num :=
  lift2 Rmult (Fin (exp (- r * t)))
    (lift2 Rmult (Fin (1 / INR (length prices)))
       (num_sum (map (payoff k) prices))).

(** Modelled from the spec: [monte_carlo_call_price], absent from the
    notebook. *)
Definition monte_carlo_call_price (s_0 r sigma t k : R) (n : Z)
  : M world num :=
  _ <- check_positive s_0 ;;
  _ <- check_positive sigma ;;
  _ <- check_positive t ;;
  _ <- check_positive k ;;
  _ <- check_count n ;;
  prices <- simulate_terminal_prices s_0 r sigma t n ;;
  ret (option_value r t k prices).

(** ** The plotting cells

    The two remaining code cells simulate prices with [bsm] and hand them to
    matplotlib.  The calls to [plt] are kept as the sequence of commands
    they issue; what matplotlib draws from them is outside the model. *)

(** Unary minus on the carrier. *)
Definition num_opp (a : num) : num :=
  match a with
  | Fin x => Fin (- x)
  | NaN => NaN
  end.

Inductive plot_cmd : Type :=
| PltFigure (width height : Z)
| PltHist (data : ndvalue num) (label : list string) (bins : Z)
    (color : string)
| PltGrid (on : bool)
| PltXlabel (text : string)
| PltYlabel (text : string)
| PltTitle (text : string).

(** The state of a notebook session: the state of the earlier cells, and
    the commands sent to the current figure. *)
Record session : Type := {
  kernel : world;
  canvas : list plot_cmd
}.

(** A computation on the generator and the output, run in a session. *)
Definition in_kernel {A : Type} (m : M world A) : M session A :=
  fun s =>
    let (o, w') := m (kernel s) in
    (o, {| kernel := w'; canvas := canvas s |}).

Definition plt (c : plot_cmd) : M session unit :=
  fun s => (Returns tt, {| kernel := kernel s; canvas := canvas s ++ [c] |}).

(** [n = 1000000
     prices = bsm(100, 0.03, 0.4, 3.0/12, np.random.standard_normal(n))
     plt.figure(figsize=(7,4))
     plt.hist(prices,label=['prices'],bins=100,color='blue')
     plt.grid(True)
     plt.xlabel('price')
     plt.ylabel('frequency')
     plt.title('Histogram of ')] *)
Definition cell_histogram : M session unit :=
  let n := N.to_nat 1000000 in
  prices <- in_kernel
              (z <- standard_normal n ;;
               call_bsm (Fin 100) (Fin (3 / 100)) (Fin (4 / 10))
                 (Fin (3 / 12)) z) ;;
  _ <- plt (PltFigure 7 4) ;;
  _ <- plt (PltHist prices ["prices"%string] 100 "blue") ;;
  _ <- plt (PltGrid true) ;;
  _ <- plt (PltXlabel "price") ;;
  _ <- plt (PltYlabel "frequency") ;;
  plt (PltTitle "Histogram of ").

(** [def plot_histogram(r, sigma, t):
         n = 1000
         prices = bsm(100, r, sigma, t, np.random.standard_normal(n))
         plt.figure(figsize=(7,4))
         plt.hist(prices,label=['prices'],bins=25,color='blue')
         plt.grid(True)
         plt.xlabel('price')
         plt.ylabel('frequency')
         plt.title('Histogram of simulated BSM prices')] *)
Definition plot_histogram (r sigma t : num) : M session unit :=
  let n := 1000%nat in
  prices <- in_kernel
              (z <- standard_normal n ;;
               call_bsm (Fin 100) r sigma t z) ;;
  _ <- plt (PltFigure 7 4) ;;
  _ <- plt (PltHist prices ["prices"%string] 25 "blue") ;;
  _ <- plt (PltGrid true) ;;
  _ <- plt (PltXlabel "price") ;;
  _ <- plt (PltYlabel "frequency") ;;
  plt (PltTitle "Histogram of simulated BSM prices").

(** The sliders of
    [interact(plot_histogram, r=(0.0, 0.2, 0.01), sigma=(0.01, 1.0, 0.01),
              t=(0.01, 2, 0.01))]:
    each triple is the least value, the greatest value and the step. *)
Record slider : Type := {
  slider_min : R;
  slider_max : R;
  slider_step : R
}.

Definition slider_r : slider :=
  {| slider_min := 0; slider_max := 2 / 10; slider_step := 1 / 100 |}.

Definition slider_sigma : slider :=
  {| slider_min := 1 / 100; slider_max := 1; slider_step := 1 / 100 |}.

Definition slider_t : slider :=
  {| slider_min := 1 / 100; slider_max := 2; slider_step := 1 / 100 |}.

(** The values a slider can be set to: a whole number of steps above the
    least value, and not above the greatest. *)
Definition on_slider (s : slider) (v : R) : Prop :=
  exists k : nat,
    v = (slider_min s + INR k * slider_step s)%R /\ (v <= slider_max s)%R.

(** ** Binary64: the numbers of the code

    The notebook computes with Python floats and NumPy's [float64], both
    IEEE 754 binary64.  Addition, subtraction, multiplication and square
    root are the correctly rounded operations of the processor, which the
    primitive floats of the prover compute bit for bit.  The exponential is
    the one of the C library; and whether an operation signals underflow
    depends on the processor.  [platform] states what is used of them. *)

Record platform : Type := {
  (** [np.exp] on one element *)
  libm_exp : float -> float;
  exp_nan : libm_exp nan = nan;
  exp_zero : forall x : float, is_zero x = true -> libm_exp x = 1%float;
  exp_underflow :
    forall x : float, (x <=? -746)%float = true -> libm_exp x = 0%float;
  exp_overflow :
    forall x : float, (710 <=? x)%float = true -> libm_exp x = infinity;
  exp_not_negative : forall x : float, (libm_exp x <? 0)%float = false;
  (** the underflow signal of the exponential and of a multiplication;
      a not-a-number or an infinity among the operands signals none *)
  exp_signals_underflow : float -> bool;
  mul_signals_underflow : float -> float -> bool;
  exp_underflow_finite :
    forall x : float, exp_signals_underflow x = true -> is_finite x = true;
  mul_underflow_finite :
    forall x y : float,
      mul_signals_underflow x y = true ->
      is_finite x = true /\ is_finite y = true
}.

(** The arithmetic of [bsm] on binary64; [0.5] is a binary64 number. *)
Definition float_Arith (P : platform) : Arith float := {|
  f_add := PrimFloat.add;
  f_sub := PrimFloat.sub;
  f_mul := PrimFloat.mul;
  f_exp := libm_exp P;
  f_sqrt := PrimFloat.sqrt;
  f_half := 0.5%float
|}.

(** [bsm] as the code evaluates it. *)
Definition bsm64 (P : platform) (s_0 r sigma t : float) (z : ndvalue float)
  : ndvalue float :=
  @bsm float (float_Arith P) s_0 r sigma t z.

(** The exponent of one price,
    [(r - 0.5*sigma*sigma)*t + sigma * np.sqrt(t)*z]. *)
Definition exponent64 (r sigma t z : float) : float :=
  ((r - 0.5 * sigma * sigma) * t + sigma * PrimFloat.sqrt t * z)%float.

(** A platform that has the stated properties and nothing more: its
    exponential is constant between the two thresholds.  It shows that
    the properties can be met, and gives the statements about every
    platform a concrete instance. *)
Definition skeleton_exp (x : float) : float :=
  if is_nan x then nan
  else if (x <=? -746)%float then 0%float
  else if (710 <=? x)%float then infinity
  else 1%float.

Definition skeleton_exp_underflow (x : float) : bool :=
  is_finite x && is_zero (skeleton_exp x).

Definition skeleton_mul_underflow (x y : float) : bool :=
  is_finite x && is_finite y
  && negb (is_zero x) && negb (is_zero y) && is_zero (x * y)%float.

(** ** NumPy's handling of floating-point errors

    After each of its operations NumPy looks at the floating-point errors
    the operation signalled and treats each category as [np.seterr]
    prescribes: it ignores the error, issues a [RuntimeWarning], or raises
    [FloatingPointError].  (The modes [call], [print] and [log] of
    [np.seterr] are left out, and the warnings are recorded as issued:
    what Python's warning filters do with them is not part of the model.)
    The arguments of [bsm] are Python floats, so that the operations on
    them alone, [(r - 0.5*sigma*sigma)*t], are not checked. *)

Inductive fp_error : Type :=
| FpDivide
| FpOver
| FpUnder
| FpInvalid.

Inductive err_mode : Type :=
| Ignore
| Warn
| Raise.

(** The settings [np.geterr()] returns. *)
Record errmodes : Type := {
  on_divide : err_mode;
  on_over : err_mode;
  on_under : err_mode;
  on_invalid : err_mode
}.

Definition mode_of (m : errmodes) (e : fp_error) : err_mode :=
  match e with
  | FpDivide => on_divide m
  | FpOver => on_over m
  | FpUnder => on_under m
  | FpInvalid => on_invalid m
  end.

(** NumPy's settings when it is imported. *)
Definition default_errmodes : errmodes :=
  {| on_divide := Warn;
     on_over := Warn;
     on_under := Ignore;
     on_invalid := Warn |}.

Inductive np_op : Type :=
| OpSqrt
| OpMultiply
| OpAdd
| OpExp.

(** One category of error, signalled in one operation. *)
Record fp_event : Type := {
  ev_error : fp_error;
  ev_op : np_op
}.

Record np_state : Type := {
  errstate : errmodes;
  warned : list fp_event
}.

(** A call returns a value or raises [FloatingPointError]. *)
Inductive py_outcome (A : Type) : Type :=
| PyReturns (a : A)
| PyRaises (e : fp_event).

Arguments PyReturns {A} a.
Arguments PyRaises {A} e.

Definition NP (A : Type) : Type := np_state -> py_outcome A * np_state.

Definition np_ret {A : Type} (a : A) : NP A := fun s => (PyReturns a, s).

Definition np_bind {A B : Type} (m : NP A) (k : A -> NP B) : NP B :=
  fun s =>
    match m s with
    | (PyReturns a, s') => k a s'
    | (PyRaises e, s') => (PyRaises e, s')
    end.

Notation "x <~ m ;; k" := (np_bind m (fun x => k))
  (at level 61, m at next level, right associativity).

Definition report (ev : fp_event) : NP unit :=
  fun s =>
    match mode_of (errstate s) (ev_error ev) with
    | Ignore => (PyReturns tt, s)
    | Warn =>
        (PyReturns tt,
         {| errstate := errstate s; warned := warned s ++ [ev] |})
    | Raise => (PyRaises ev, s)
    end.

Fixpoint report_all (evs : list fp_event) : NP unit :=
  match evs with
  | [] => np_ret tt
  | ev :: evs' => _ <~ report ev ;; report_all evs'
  end.

(** The errors of one operation, in the order in which NumPy handles the
    categories: overflow, underflow, invalid (none of these operations
    divides). *)
Definition signalled (op : np_op) (over under invalid : bool)
  : list fp_event :=
  (if over then [{| ev_error := FpOver; ev_op := op |}] else [])
  ++ (if under then [{| ev_error := FpUnder; ev_op := op |}] else [])
  ++ (if invalid then [{| ev_error := FpInvalid; ev_op := op |}] else []).

(** An operation on an array signals what any of its elements signals. *)
Definition any_element (f : float -> bool) (v : ndvalue float) : bool :=
  existsb f (elements v).

(** What the operations signal on one element: invalid when the result is
    not a number and no operand is, overflow when the result is infinite
    and the operands are finite. *)
Definition sqrt_invalid (x : float) : bool := (x <? 0)%float.

Definition mul_over (x y : float) : bool :=
  is_finite x && is_finite y && is_infinity (x * y)%float.

Definition mul_invalid (x y : float) : bool :=
  is_nan (x * y)%float && negb (is_nan x) && negb (is_nan y).

Definition add_over (x y : float) : bool :=
  is_finite x && is_finite y && is_infinity (x + y)%float.

Definition add_invalid (x y : float) : bool :=
  is_nan (x + y)%float && negb (is_nan x) && negb (is_nan y).

Definition exp_over (P : platform) (x : float) : bool :=
  is_finite x && is_infinity (libm_exp P x).

Definition sqrt_events (t : float) : list fp_event :=
  signalled OpSqrt false false (sqrt_invalid t).

Definition multiply_events (P : platform) (x : float) (v : ndvalue float)
  : list fp_event :=
  signalled OpMultiply
    (any_element (mul_over x) v)
    (any_element (mul_signals_underflow P x) v)
    (any_element (mul_invalid x) v).

Definition add_events (x : float) (v : ndvalue float) : list fp_event :=
  signalled OpAdd
    (any_element (add_over x) v) false (any_element (add_invalid x) v).

Definition exp_events (P : platform) (v : ndvalue float) : list fp_event :=
  signalled OpExp
    (any_element (exp_over P) v)
    (any_element (exp_signals_underflow P) v)
    false.

(** [np.sqrt(t)] on the Python float [t]. *)
Definition checked_sqrt (t : float) : NP float :=
  _ <~ report_all (sqrt_events t) ;;
  np_ret (PrimFloat.sqrt t).

(** [x * v] for a scalar [x] and a NumPy scalar or array [v]. *)
Definition checked_multiply (P : platform) (x : float) (v : ndvalue float)
  : NP (ndvalue float) :=
  _ <~ report_all (multiply_events P x v) ;;
  np_ret (broadcast PrimFloat.mul x v).

(** [x * y] for a Python float [x] and a NumPy scalar [y]. *)
Definition checked_multiply_scalar (P : platform) (x y : float) : NP float :=
  _ <~ report_all (multiply_events P x (Scalar y)) ;;
  np_ret (x * y)%float.

(** [x + v] for a Python float [x] and a NumPy scalar or array [v]. *)
Definition checked_add (x : float) (v : ndvalue float)
  : NP (ndvalue float) :=
  _ <~ report_all (add_events x v) ;;
  np_ret (broadcast PrimFloat.add x v).

(** [np.exp(v)] *)
Definition checked_exp (P : platform) (v : ndvalue float)
  : NP (ndvalue float) :=
  _ <~ report_all (exp_events P v) ;;
  np_ret (ufunc (libm_exp P) v).

(** The call [bsm(s_0, r, sigma, t, z)] on Python floats [s_0], [r],
    [sigma], [t], operation by operation in the order of evaluation of
    [s_0 * np.exp((r - 0.5*sigma*sigma)*t + sigma * np.sqrt(t)*z)]. *)
Definition run_bsm (P : platform) (s_0 r sigma t : float)
  (z : ndvalue float) : NP (ndvalue float) :=
  let drift := ((r - 0.5 * sigma * sigma) * t)%float in
  root <~ checked_sqrt t ;;
  vol <~ checked_multiply_scalar P sigma root ;;
  shock <~ checked_multiply P vol z ;;
  exponent <~ checked_add drift shock ;;
  growth <~ checked_exp P exponent ;;
  checked_multiply P s_0 growth.

(** The errors a call signals when every operation is carried out. *)
Definition fp_events (P : platform) (s_0 r sigma t : float)
  (z : ndvalue float) : list fp_event :=
  let drift := ((r - 0.5 * sigma * sigma) * t)%float in
  let root := PrimFloat.sqrt t in
  let vol := (sigma * root)%float in
  let shock := broadcast PrimFloat.mul vol z in
  let exponent := broadcast PrimFloat.add drift shock in
  let growth := ufunc (libm_exp P) exponent in
  sqrt_events t
  ++ multiply_events P sigma (Scalar root)
  ++ multiply_events P vol z
  ++ add_events drift shock
  ++ exp_events P exponent
  ++ multiply_events P s_0 growth.

Definition np_state0 : np_state :=
  {| errstate := default_errmodes; warned := [] |}.

(** * Properties of the market model *)

(** ** The shape of the computation, for any arithmetic *)

Section Shape.
Context {F : Type} `{Arith F}.

Lemma bsm_scalar (s_0 r sigma t z : F) :
  bsm s_0 r sigma t (Scalar z) = Scalar (bsm1 s_0 r sigma t z).
Proof. reflexivity. Qed.

Lemma bsm_array (s_0 r sigma t : F) (zs : list F) :
  bsm s_0 r sigma t (Array zs) = Array (map (bsm1 s_0 r sigma t) zs).
Proof.
  unfold bsm, broadcast, np_exp, np_sqrt; simpl.
  rewrite !map_map. reflexivity.
Qed.

Lemma bsm_elements (s_0 r sigma t : F) (z : ndvalue F) :
  elements (bsm s_0 r sigma t z) = map (bsm1 s_0 r sigma t) (elements z).
Proof.
  destruct z as [z | zs].
  - reflexivity.
  - rewrite bsm_array. reflexivity.
Qed.

Lemma bsm_item (s_0 r sigma t : F) (z : ndvalue F) (i : nat) :
  item (bsm s_0 r sigma t z) i
  = option_map (bsm1 s_0 r sigma t) (item z i).
Proof.
  unfold item. rewrite bsm_elements. apply nth_error_map.
Qed.
End Shape.

Lemma bsm1_terminal_price (s_0 r sigma t z : num) :
  bsm1 s_0 r sigma t z = terminal_price s_0 r sigma t z.
Proof.
  unfold bsm1, terminal_price.
  destruct s_0 as [s|], r as [r|], sigma as [v|], t as [t|], z as [z|];
    simpl; try reflexivity;
    try (destruct (Rcase_abs t); reflexivity).
  destruct (Rcase_abs t); simpl; try reflexivity.
  do 2 f_equal. f_equal. field.
Qed.

Lemma terminal_price_real (s_0 r sigma t z : R) :
  (0 <= t)%R ->
  terminal_price (Fin s_0) (Fin r) (Fin sigma) (Fin t) (Fin z)
  = Fin (gbm_price s_0 r sigma t z).
Proof.
  intros Ht. unfold terminal_price, gbm_price. simpl.
  destruct (Rcase_abs t) as [Hneg | _]; [lra |].
  simpl. do 3 f_equal. field.
Qed.

Lemma bsm_num (s_0 r sigma t : num) (z : ndvalue num) :
  bsm s_0 r sigma t z = ufunc (terminal_price s_0 r sigma t) z.
Proof.
  destruct z as [z | zs].
  - rewrite bsm_scalar, bsm1_terminal_price. reflexivity.
  - rewrite bsm_array. simpl. f_equal.
    apply map_ext. intros z. apply bsm1_terminal_price.
Qed.

Lemma gbm_price_pos (s_0 r sigma t z : R) :
  (0 < s_0)%R -> (0 < gbm_price s_0 r sigma t z)%R.
Proof.
  intros Hs. unfold gbm_price.
  apply Rmult_lt_0_compat; [exact Hs | apply exp_pos].
Qed.


(** ** The notebook's cells

    What the two cells that call [bsm] print: the prices of the draws taken
    from the generator, which is the only state they read. *)

Lemma cell_scalar_prints (w : world) :
  cell_scalar w
  = (Returns tt,
     {| rng_stream := rng_stream w;
        rng_pos := rng_pos w + 1;
        stdout :=
          stdout w
          ++ [Scalar (bsm1 (Fin 100) (Fin (3 / 100)) (Fin (4 / 10))
                        (Fin (3 / 12))
                        (Fin (rng_stream w (rng_pos w))))] |}).
Proof. reflexivity. Qed.

Lemma cell_vector_prints (w : world) :
  cell_vector w
  = (Returns tt,
     {| rng_stream := rng_stream w;
        rng_pos := rng_pos w + 10;
        stdout :=
          stdout w
          ++ [Array (map (bsm1 (Fin 100) (Fin (3 / 100)) (Fin (4 / 10))
                            (Fin (3 / 12)))
                       (draws w 10))] |}).
Proof.
  unfold cell_vector, bind, standard_normal, call_bsm, ret, print, advance.
  cbn [rng_stream rng_pos stdout]. now rewrite bsm_array.
Qed.

(** * The standard normal distribution function *)

Section Analysis.
Local Open Scope R_scope.

(** ** Calculus helpers *)

Lemma derivable_pt_lim_local (f g : R -> R) (x l d : R) :
  0 < d ->
  (forall y, x - d < y < x + d -> f y = g y) ->
  derivable_pt_lim g x l -> derivable_pt_lim f x l.
Proof.
  intros Hd Hfg Hg eps Heps.
  destruct (Hg eps Heps) as [delta Hdelta].
  assert (Hmin : 0 < Rmin delta d).
  { apply Rmin_glb_lt; [apply cond_pos | exact Hd]. }
  exists (mkposreal _ Hmin). intros h Hh0 Hh. simpl in Hh.
  assert (Hhd : Rabs h < d).
  { eapply Rlt_le_trans; [exact Hh | apply Rmin_r]. }
  assert (Hhdelta : Rabs h < delta).
  { eapply Rlt_le_trans; [exact Hh | apply Rmin_l]. }
  apply Rabs_def2 in Hhd.
  rewrite (Hfg (x + h)) by lra.
  rewrite (Hfg x) by lra.
  now apply Hdelta.
Qed.

(** A function whose derivative is nonnegative on a segment does not
    decrease along it. *)
Lemma nondecreasing_of_derivative (f f' : R -> R) (a b : R) :
  a <= b ->
  (forall c, a <= c <= b -> derivable_pt_lim f c (f' c)) ->
  (forall c, a <= c <= b -> 0 <= f' c) ->
  f a <= f b.
Proof.
  intros Hab Hd Hpos.
  destruct Hab as [Hlt | ->]; [| lra].
  destruct (MVT_cor2 f f' a b Hlt Hd) as (c & Hc & Hac).
  assert (0 <= f' c * (b - a)).
  { apply Rmult_le_pos; [apply Hpos; lra | lra]. }
  lra.
Qed.

(** ** The density *)

Lemma inv_sqrt_2PI_pos : 0 < / sqrt (2 * PI).
Proof.
  apply Rinv_0_lt_compat, sqrt_lt_R0.
  assert (H := PI_RGT_0). lra.
Qed.

Lemma std_normal_pdf_pos (x : R) : 0 < std_normal_pdf x.
Proof.
  unfold std_normal_pdf.
  apply Rmult_lt_0_compat; [apply inv_sqrt_2PI_pos | apply exp_pos].
Qed.

Lemma std_normal_pdf_continuity : continuity std_normal_pdf.
Proof. unfold std_normal_pdf. reg. Qed.

Lemma std_normal_pdf_le_bound (x : R) : std_normal_pdf x <= pdf_bound x.
Proof.
  unfold std_normal_pdf, pdf_bound.
  apply Rmult_le_compat_l; [left; apply inv_sqrt_2PI_pos |].
  assert (Hsq : - (x * x) / 2 <= x + 1 / 2).
  { assert (H := Rle_0_sqr (x + 1)). unfold Rsqr in H. lra. }
  destruct Hsq as [Hlt | Heq].
  - left. now apply exp_increasing.
  - rewrite Heq. lra.
Qed.

Lemma pdf_bound_derivative (x : R) :
  derivable_pt_lim pdf_bound x (pdf_bound x).
Proof.
  unfold pdf_bound.
  assert (Hin : derivable_pt_lim (fun y => y + 1 / 2) x (1 + 0)).
  { apply (derivable_pt_lim_plus id (fun _ => 1 / 2));
      [apply derivable_pt_lim_id | apply derivable_pt_lim_const]. }
  assert (Hexp := derivable_pt_lim_comp _ exp x _ (exp (x + 1 / 2)) Hin
                    (derivable_pt_lim_exp _)).
  assert (Hs := derivable_pt_lim_scal _ (/ sqrt (2 * PI)) x _ Hexp).
  unfold mult_real_fct, comp in Hs.
  replace (/ sqrt (2 * PI) * (exp (x + 1 / 2) * (1 + 0)))
    with (/ sqrt (2 * PI) * exp (x + 1 / 2)) in Hs by ring.
  exact Hs.
Qed.

Lemma pdf_bound_pos (x : R) : 0 < pdf_bound x.
Proof.
  unfold pdf_bound.
  apply Rmult_lt_0_compat; [apply inv_sqrt_2PI_pos | apply exp_pos].
Qed.

(** ** A primitive of the density *)

Lemma std_normal_pdf_integrable (a b : R) :
  Riemann_integrable std_normal_pdf a b.
Proof.
  destruct (Rle_dec a b) as [Hab | Hab].
  - apply continuity_implies_RiemannInt; [exact Hab |].
    intros x _. apply std_normal_pdf_continuity.
  - apply RiemannInt_P1, continuity_implies_RiemannInt; [lra |].
    intros x _. apply std_normal_pdf_continuity.
Qed.


Lemma integral_RiemannInt (f : R -> R) (a b : R)
  (pr : Riemann_integrable f a b) :
  integral f a b = RiemannInt pr.
Proof.
  unfold integral.
  destruct (epsilon_spec (inhabits 0)
              (fun v => exists pr' : Riemann_integrable f a b,
                          RiemannInt pr' = v)
              (ex_intro _ _ (ex_intro _ pr eq_refl))) as [pr' <-].
  apply RiemannInt_P5.
Qed.

Lemma pdf_integral_eq (a b : R) :
  pdf_integral a b = RiemannInt (std_normal_pdf_integrable a b).
Proof. apply integral_RiemannInt. Qed.

Lemma pdf_integral_chasles (a b c : R) :
  pdf_integral a b + pdf_integral b c = pdf_integral a c.
Proof. rewrite !pdf_integral_eq. apply RiemannInt_P26. Qed.

Lemma pdf_integral_derivative (a x : R) :
  derivable_pt_lim (pdf_integral a) x (std_normal_pdf x).
Proof.
  assert (h : x - 1 <= x + 1) by lra.
  assert (C0 : forall y, x - 1 <= y <= x + 1 -> continuity_pt std_normal_pdf y).
  { intros y _. apply std_normal_pdf_continuity. }
  assert (Hp := RiemannInt_P28 h C0 (x := x)).
  apply derivable_pt_lim_local
    with (g := fun y => pdf_integral a (x - 1)
                        + primitive h (FTC_P1 h C0) y) (d := 1).
  - lra.
  - intros y Hy. rewrite <- (pdf_integral_chasles a (x - 1) y).
    f_equal. rewrite pdf_integral_eq. unfold primitive.
    destruct (Rle_dec (x - 1) y) as [H1 | H1]; [| lra].
    destruct (Rle_dec y (x + 1)) as [H2 | H2]; [| lra].
    apply RiemannInt_P5.
  - replace (std_normal_pdf x) with (0 + std_normal_pdf x) by ring.
    apply (derivable_pt_lim_plus (fun _ => pdf_integral a (x - 1))).
    + apply derivable_pt_lim_const.
    + apply Hp. lra.
Qed.

Lemma pdf_integral_refl (a : R) : pdf_integral a a = 0.
Proof. rewrite pdf_integral_eq. apply RiemannInt_P9. Qed.

Lemma pdf_integral_swap (a b : R) : pdf_integral a b = - pdf_integral b a.
Proof.
  assert (H := pdf_integral_chasles a b a).
  rewrite pdf_integral_refl in H. lra.
Qed.

Lemma pdf_integral_nonneg (a b : R) : a <= b -> 0 <= pdf_integral a b.
Proof.
  intros Hab. rewrite <- (pdf_integral_refl a).
  apply nondecreasing_of_derivative with (f' := std_normal_pdf);
    [exact Hab | |].
  - intros c _. apply pdf_integral_derivative.
  - intros c _. left. apply std_normal_pdf_pos.
Qed.

Lemma pdf_integral_le_bound (a b : R) :
  a <= b -> pdf_integral a b <= pdf_bound b.
Proof.
  intros Hab.
  assert (H : pdf_bound a - pdf_integral a a
              <= pdf_bound b - pdf_integral a b).
  { apply nondecreasing_of_derivative
      with (f := fun y => pdf_bound y - pdf_integral a y)
           (f' := fun y => pdf_bound y - std_normal_pdf y);
      [exact Hab | |].
    - intros c _.
      apply (derivable_pt_lim_minus pdf_bound (pdf_integral a));
        [apply pdf_bound_derivative | apply pdf_integral_derivative].
    - intros c _. assert (Hc := std_normal_pdf_le_bound c). lra. }
  rewrite pdf_integral_refl in H.
  assert (Ha := pdf_bound_pos a). lra.
Qed.


Lemma left_mass_growing : Un_growing left_mass.
Proof.
  intros n. unfold left_mass.
  rewrite <- (pdf_integral_chasles (- INR (S n)) (- INR n) 0).
  assert (H : 0 <= pdf_integral (- INR (S n)) (- INR n)).
  { apply pdf_integral_nonneg. rewrite S_INR. lra. }
  lra.
Qed.

Lemma left_mass_bounded : has_ub left_mass.
Proof.
  exists (pdf_bound 0). intros y [n ->]. unfold left_mass.
  apply pdf_integral_le_bound.
  assert (H := pos_INR n). lra.
Qed.

(** ** Existence of the distribution function *)

Lemma std_normal_cdf_exists : exists F, is_cdf_of std_normal_pdf F.
Proof.
  destruct (growing_cv left_mass left_mass_growing left_mass_bounded)
    as [l Hl].
  assert (Hle : forall x, pdf_integral x 0 <= l).
  { intros x.
    destruct (archimed (- x)) as [Hup _].
    assert (Hn : - x <= INR (Z.to_nat (up (- x)))).
    { destruct (Z_lt_le_dec (up (- x)) 0) as [Hneg | Hpos].
      - apply IZR_lt in Hneg.
        assert (H := pos_INR (Z.to_nat (up (- x)))). lra.
      - rewrite INR_IZR_INZ, Z2Nat.id by exact Hpos. lra. }
    set (n := Z.to_nat (up (- x))) in *.
    apply Rle_trans with (left_mass n).
    - unfold left_mass.
      rewrite <- (pdf_integral_chasles (- INR n) x 0).
      assert (H : 0 <= pdf_integral (- INR n) x)
        by (apply pdf_integral_nonneg; lra).
      lra.
    - apply growing_ineq; [apply left_mass_growing | exact Hl]. }
  exists (fun x => l + pdf_integral 0 x). split.
  - intros x.
    replace (std_normal_pdf x) with (0 + std_normal_pdf x) by ring.
    apply (derivable_pt_lim_plus (fun _ => l) (pdf_integral 0));
      [apply derivable_pt_lim_const | apply pdf_integral_derivative].
  - intros eps Heps.
    destruct (Hl eps Heps) as [N HN].
    specialize (HN N (Nat.le_refl N)).
    unfold Rdist in HN. apply Rabs_def2 in HN.
    exists (- INR N). intros x Hx.
    rewrite (pdf_integral_swap 0 x).
    assert (H1 := Hle x).
    assert (H2 : left_mass N <= pdf_integral x 0).
    { unfold left_mass.
      rewrite <- (pdf_integral_chasles x (- INR N) 0).
      assert (H : 0 <= pdf_integral x (- INR N))
        by (apply pdf_integral_nonneg; lra).
      lra. }
    apply Rabs_def1; lra.
Qed.

Lemma standard_normal_cdf_spec : is_cdf_of std_normal_pdf standard_normal_cdf.
Proof.
  unfold standard_normal_cdf. apply epsilon_spec, std_normal_cdf_exists.
Qed.

(** ** Properties of a distribution function of the density *)

Section Cdf.
Variable F : R -> R.
Hypothesis F_cdf : is_cdf_of std_normal_pdf F.

Lemma cdf_nondecreasing (x y : R) : x <= y -> F x <= F y.
Proof.
  intros Hxy.
  apply nondecreasing_of_derivative with (f' := std_normal_pdf);
    [exact Hxy | |].
  - intros c _. apply F_cdf.
  - intros c _. left. apply std_normal_pdf_pos.
Qed.

Lemma cdf_nonneg (x : R) : 0 <= F x.
Proof.
  destruct (Rle_lt_dec 0 (F x)) as [H | H]; [exact H | exfalso].
  destruct (proj2 F_cdf (- F x)) as [m Hm]; [lra |].
  specialize (Hm (Rmin m x - 1)).
  assert (Hlt : Rmin m x - 1 < m) by (assert (H1 := Rmin_l m x); lra).
  specialize (Hm Hlt). apply Rabs_def2 in Hm.
  assert (Hmon : F (Rmin m x - 1) <= F x).
  { apply cdf_nondecreasing. assert (H1 := Rmin_r m x). lra. }
  lra.
Qed.

(** Shifting the density by [a] multiplies it by [exp (a y - a^2/2)]. *)
Lemma std_normal_pdf_shift (a y : R) :
  exp (a * y - a * a / 2) * std_normal_pdf y = std_normal_pdf (y - a).
Proof.
  unfold std_normal_pdf.
  rewrite (Rmult_comm (/ sqrt (2 * PI))), <- Rmult_assoc, <- exp_plus.
  rewrite Rmult_comm. do 2 f_equal. field.
Qed.

Lemma tilt_derivative (a y : R) :
  derivable_pt_lim (tilt a) y (a * tilt a y).
Proof.
  unfold tilt.
  assert (Hin : derivable_pt_lim (fun z => a * z - a * a / 2) y
                  (a * 1 - 0)).
  { apply (derivable_pt_lim_minus (fun z => a * z) (fun _ => a * a / 2)).
    - apply (derivable_pt_lim_scal id a), derivable_pt_lim_id.
    - apply derivable_pt_lim_const. }
  assert (Hexp := derivable_pt_lim_comp _ exp y _ _ Hin
                    (derivable_pt_lim_exp _)).
  unfold comp in Hexp.
  replace (a * exp (a * y - a * a / 2))
    with (exp (a * y - a * a / 2) * (a * 1 - 0)) by ring.
  exact Hexp.
Qed.

Lemma cdf_shift_derivative (a y : R) :
  derivable_pt_lim (fun z => F (z - a)) y (std_normal_pdf (y - a)).
Proof.
  assert (Hin : derivable_pt_lim (fun z => z - a) y (1 - 0)).
  { apply (derivable_pt_lim_minus id (fun _ => a));
      [apply derivable_pt_lim_id | apply derivable_pt_lim_const]. }
  assert (Hc := derivable_pt_lim_comp _ F y _ _ Hin (proj1 F_cdf (y - a))).
  unfold comp in Hc.
  replace (std_normal_pdf (y - a))
    with (std_normal_pdf (y - a) * (1 - 0)) by ring.
  exact Hc.
Qed.

Lemma gap_derivative (a y : R) :
  derivable_pt_lim (gap F a) y (a * tilt a y * F y).
Proof.
  unfold gap.
  assert (Hm := derivable_pt_lim_mult _ _ y _ _ (tilt_derivative a y)
                  (proj1 F_cdf y)).
  assert (Hd := derivable_pt_lim_minus _ _ y _ _ Hm
                  (cdf_shift_derivative a y)).
  unfold mult_fct, minus_fct in Hd.
  replace (a * tilt a y * F y)
    with (a * tilt a y * F y + tilt a y * std_normal_pdf y
          - std_normal_pdf (y - a)).
  - exact Hd.
  - unfold tilt. rewrite std_normal_pdf_shift. ring.
Qed.

Lemma gap_nondecreasing (a x y : R) : 0 <= a -> x <= y -> gap F a x <= gap F a y.
Proof.
  intros Ha Hxy.
  apply nondecreasing_of_derivative
    with (f' := fun z => a * tilt a z * F z); [exact Hxy | |].
  - intros c _. apply gap_derivative.
  - intros c _. apply Rmult_le_pos; [| apply cdf_nonneg].
    apply Rmult_le_pos; [exact Ha | left; apply exp_pos].
Qed.

Lemma gap_nonneg (a d : R) : 0 <= a -> 0 <= gap F a d.
Proof.
  intros Ha.
  destruct (Rle_lt_dec 0 (gap F a d)) as [H | H]; [exact H | exfalso].
  destruct (proj2 F_cdf (- gap F a d)) as [m Hm]; [lra |].
  set (y := Rmin m d - 1).
  assert (Hym : y < m) by (unfold y; assert (H1 := Rmin_l m d); lra).
  assert (Hyd : y <= d) by (unfold y; assert (H1 := Rmin_r m d); lra).
  assert (Hshift := Hm (y - a) ltac:(lra)).
  apply Rabs_def2 in Hshift.
  assert (Hmon := gap_nondecreasing Ha Hyd).
  assert (Htilt : 0 <= tilt a y * F y).
  { apply Rmult_le_pos; [left; apply exp_pos | apply cdf_nonneg]. }
  unfold gap in Hmon at 1. lra.
Qed.

(** The shifted distribution function is below the tilted one. *)
Lemma cdf_shift_le (a d : R) :
  0 <= a -> F (d - a) <= exp (a * d - a * a / 2) * F d.
Proof.
  intros Ha. assert (H := gap_nonneg d Ha). unfold gap, tilt in H. lra.
Qed.
End Cdf.
End Analysis.


(** Two distribution functions of the density are equal: the name
    [standard_normal_cdf] denotes one function. *)
Lemma cdf_unique (F G : R -> R) :
  is_cdf_of std_normal_pdf F -> is_cdf_of std_normal_pdf G ->
  forall x : R, F x = G x.
Proof.
  intros HF HG x.
  assert (Hd : forall c : R,
             derivable_pt_lim (fun y => F y - G y)%R c 0%R).
  { intros c.
    replace 0%R with (std_normal_pdf c - std_normal_pdf c)%R by ring.
    apply (derivable_pt_lim_minus F G); [apply HF | apply HG]. }
  assert (Hconst : forall a b : R, (a <= b)%R -> (F a - G a = F b - G b)%R).
  { intros a b Hab. apply Rle_antisym.
    - apply nondecreasing_of_derivative
        with (f := fun y => (F y - G y)%R) (f' := fun _ => 0%R);
        [exact Hab | intros; apply Hd | intros; lra].
    - apply Ropp_le_cancel.
      apply nondecreasing_of_derivative
        with (f := fun y => (- (F y - G y))%R) (f' := fun _ => (- 0)%R);
        [exact Hab | | intros; lra].
      intros c _. apply (derivable_pt_lim_opp _ c 0%R), Hd. }
  destruct (Req_dec (F x) (G x)) as [E | Hne]; [exact E | exfalso].
  assert (Heps : (0 < Rabs (F x - G x) / 2)%R).
  { assert (H := Rabs_pos_lt (F x - G x)%R). lra. }
  destruct (proj2 HF _ Heps) as [m1 Hm1].
  destruct (proj2 HG _ Heps) as [m2 Hm2].
  set (y := (Rmin (Rmin m1 m2) x - 1)%R).
  assert (H1 := Rmin_l (Rmin m1 m2) x).
  assert (H2 := Rmin_r (Rmin m1 m2) x).
  assert (H3 := Rmin_l m1 m2).
  assert (H4 := Rmin_r m1 m2).
  assert (Hy1 := Hm1 y ltac:(unfold y; lra)).
  assert (Hy2 := Hm2 y ltac:(unfold y; lra)).
  assert (Hyx := Hconst y x ltac:(unfold y; lra)).
  rewrite <- Hyx in Heps, Hy1, Hy2.
  assert (Htri := Rabs_triang (F y) (- G y)%R).
  rewrite Rabs_Ropp in Htri.
  replace (F y + - G y)%R with (F y - G y)%R in Htri by ring.
  lra.
Qed.

(** * Properties of the pricing interface *)

(** ** The closed form is not negative *)

Lemma call_formula_nonneg (s r sigma t k : R) :
  (0 < s)%R -> (0 < k)%R -> (0 < sigma)%R -> (0 < t)%R ->
  (0 <= call_formula s r sigma t k)%R.
Proof.
  intros Hs Hk Hv Ht.
  assert (Hsq : (0 < sqrt t)%R) by now apply sqrt_lt_R0.
  set (a := (sigma * sqrt t)%R).
  assert (Ha : (0 < a)%R) by now apply Rmult_lt_0_compat.
  assert (Hshift := cdf_shift_le standard_normal_cdf_spec
                      (d1 s r sigma t k) (a := a) ltac:(lra)).
  assert (Hexp : (exp (a * d1 s r sigma t k - a * a / 2)
                  = s / k * exp (r * t))%R).
  { replace (a * d1 s r sigma t k - a * a / 2)%R
      with (ln (s / k) + r * t)%R.
    - rewrite exp_plus, exp_ln; [reflexivity |].
      now apply Rdiv_lt_0_compat.
    - unfold d1. fold a.
      replace (a * a)%R with (sigma ^ 2 * (sqrt t * sqrt t))%R
        by (unfold a; ring).
      rewrite sqrt_sqrt by lra. field. lra. }
  rewrite Hexp in Hshift.
  unfold call_formula, d2. fold a.
  assert (Hk' : (0 < k * exp (- r * t))%R)
    by (apply Rmult_lt_0_compat; [exact Hk | apply exp_pos]).
  apply (Rmult_le_compat_r (k * exp (- r * t))) in Hshift; [| lra].
  replace (s / k * exp (r * t) * standard_normal_cdf (d1 s r sigma t k)
           * (k * exp (- r * t)))%R
    with (standard_normal_cdf (d1 s r sigma t k) * s
          * (exp (r * t) * exp (- r * t)))%R in Hshift
    by (field; lra).
  rewrite <- exp_plus in Hshift.
  replace (r * t + - r * t)%R with 0%R in Hshift by ring.
  rewrite exp_0 in Hshift. lra.
Qed.

(** ** The checks *)

Lemma check_positive_ok {W : Type} (x : R) (w : W) :
  (0 < x)%R -> check_positive x w = (Returns tt, w).
Proof.
  intros Hx. unfold check_positive.
  destruct (Rle_dec x 0); [lra | reflexivity].
Qed.

Lemma check_count_ok {W : Type} (n : Z) (w : W) :
  (1 <= n)%Z -> check_count n w = (Returns tt, w).
Proof.
  intros Hn. unfold check_count.
  destruct (Z.ltb_spec n 1); [lia | reflexivity].
Qed.

Lemma bind_returns {W A B : Type} (m : M W A) (k : A -> M W B)
  (a : A) (w w' : W) :
  m w = (Returns a, w') -> bind m k w = k a w'.
Proof. intros E. unfold bind. now rewrite E. Qed.

Lemma call_valid {W : Type} (s r sigma t k : R) (w : W) :
  (0 < s)%R -> (0 < sigma)%R -> (0 < t)%R -> (0 < k)%R ->
  call s r sigma t k w = (Returns (Fin (call_formula s r sigma t k)), w).
Proof.
  intros Hs Hv Ht Hk. unfold call.
  repeat (erewrite bind_returns; [| now apply check_positive_ok]).
  reflexivity.
Qed.

Lemma call_invalid {W : Type} (s r sigma t k : R) (w : W) :
  (s <= 0 \/ sigma <= 0 \/ t <= 0 \/ k <= 0)%R ->
  call s r sigma t k w = (Raises InvalidParameter, w).
Proof.
  intros H. unfold call, bind, check_positive, raise, ret.
  destruct (Rle_dec s 0); [reflexivity |].
  destruct (Rle_dec sigma 0); [reflexivity |].
  destruct (Rle_dec t 0); [reflexivity |].
  destruct (Rle_dec k 0); [reflexivity | lra].
Qed.

(** ** The estimator *)

Lemma bsm_elements_positive (s_0 r sigma t : R) (zs : list num) :
  (0 < s_0)%R -> (0 <= t)%R -> Forall finite zs ->
  Forall positive (map (bsm1 (Fin s_0) (Fin r) (Fin sigma) (Fin t)) zs).
Proof.
  intros Hs Ht Hzs. apply Forall_map.
  eapply Forall_impl; [| exact Hzs].
  intros [x |] Hx; [| contradiction].
  rewrite bsm1_terminal_price, terminal_price_real by exact Ht.
  simpl. now apply gbm_price_pos.
Qed.

Lemma draws_finite (w : world) (n : nat) : Forall finite (draws w n).
Proof.
  unfold draws. apply Forall_map, Forall_forall. intros; exact I.
Qed.

Lemma draws_length (w : world) (n : nat) : length (draws w n) = n.
Proof. unfold draws. now rewrite length_map, length_seq. Qed.

Lemma payoff_sum_nonneg (k : R) (prices : list num) :
  Forall positive prices ->
  exists v : R, num_sum (map (payoff k) prices) = Fin v /\ (0 <= v)%R.
Proof.
  induction 1 as [| p prices Hp _ IH].
  - exists 0%R. split; [reflexivity | lra].
  - destruct IH as (v & Ev & Hv).
    destruct p as [x |]; [| contradiction].
    exists (Rmax (x - k) 0 + v)%R. split.
    + unfold num_sum in *. cbn [map fold_right]. rewrite Ev. reflexivity.
    + assert (H := Rmax_r (x - k) 0). lra.
Qed.

Lemma option_value_nonneg (r t k : R) (prices : list num) :
  Forall positive prices -> (0 < length prices)%nat ->
  exists v : R, option_value r t k prices = Fin v /\ (0 <= v)%R.
Proof.
  intros Hp Hlen.
  destruct (payoff_sum_nonneg k Hp) as (v & Ev & Hv).
  exists (exp (- r * t) * (1 / INR (length prices) * v))%R. split.
  - unfold option_value. now rewrite Ev.
  - apply Rmult_le_pos; [left; apply exp_pos |].
    apply Rmult_le_pos; [| exact Hv].
    left. apply Rdiv_lt_0_compat; [lra |].
    now apply lt_0_INR.
Qed.

Lemma simulate_valid (s_0 r sigma t : R) (n : Z) (w : world) :
  (0 < s_0)%R -> (0 < sigma)%R -> (0 < t)%R -> (1 <= n)%Z ->
  simulate_terminal_prices s_0 r sigma t n w
  = (Returns (map (bsm1 (Fin s_0) (Fin r) (Fin sigma) (Fin t))
                (draws w (Z.to_nat n))),
     advance (Z.to_nat n) w).
Proof.
  intros Hs Hv Ht Hn. unfold simulate_terminal_prices.
  repeat (erewrite bind_returns; [| now apply check_positive_ok]).
  erewrite bind_returns; [| now apply check_count_ok].
  unfold bind, standard_normal, call_bsm, ret.
  now rewrite bsm_elements.
Qed.

Lemma monte_carlo_valid (s_0 r sigma t k : R) (n : Z) (w : world) :
  (0 < s_0)%R -> (0 < sigma)%R -> (0 < t)%R -> (0 < k)%R -> (1 <= n)%Z ->
  monte_carlo_call_price s_0 r sigma t k n w
  = (Returns (option_value r t k
                (map (bsm1 (Fin s_0) (Fin r) (Fin sigma) (Fin t))
                   (draws w (Z.to_nat n)))),
     advance (Z.to_nat n) w).
Proof.
  intros Hs Hv Ht Hk Hn. unfold monte_carlo_call_price.
  repeat (erewrite bind_returns; [| now apply check_positive_ok]).
  erewrite bind_returns; [| now apply check_count_ok].
  erewrite bind_returns; [| now apply simulate_valid].
  reflexivity.
Qed.

(** * The claims

    ** The market model *)

(** C1.  For every spot, rate, volatility, maturity and draw, [bsm] returns
    [s_0 * exp((r - sigma^2/2)*t + sigma*sqrt(t)*z)]: on one draw, and on
    every element of an array of draws.  The formula is evaluated on the
    carrier of the code (a negative maturity has no square root: both sides
    are not-a-number); for a maturity [t >= 0] it is the real number
    [gbm_price]. *)
Theorem bsm_returns_terminal_price :
  (forall s_0 r sigma t z : num,
      bsm s_0 r sigma t (Scalar z) = Scalar (terminal_price s_0 r sigma t z))
  /\ (forall (s_0 r sigma t : num) (zs : list num),
         bsm s_0 r sigma t (Array zs)
         = Array (map (terminal_price s_0 r sigma t) zs))
  /\ (forall s_0 r sigma t z : R,
         (0 <= t)%R ->
         bsm (Fin s_0) (Fin r) (Fin sigma) (Fin t) (Scalar (Fin z))
         = Scalar (Fin (gbm_price s_0 r sigma t z)))
  /\ (forall (s_0 r sigma t : R) (zs : list R),
         (0 <= t)%R ->
         bsm (Fin s_0) (Fin r) (Fin sigma) (Fin t) (Array (map Fin zs))
         = Array (map (fun z => Fin (gbm_price s_0 r sigma t z)) zs)).
Proof.
  repeat split.
  - intros. apply (bsm_num s_0 r sigma t (Scalar z)).
  - intros. apply (bsm_num s_0 r sigma t (Array zs)).
  - intros s_0 r sigma t z Ht.
    rewrite bsm_num. simpl. now rewrite terminal_price_real.
  - intros s_0 r sigma t zs Ht.
    rewrite bsm_num. simpl. f_equal. rewrite map_map.
    apply map_ext. intros z. now apply terminal_price_real.
Qed.

Lemma bsm_returns_terminal_price_witness :
  bsm (Fin 100) (Fin 0) (Fin 0) (Fin 0) (Scalar (Fin 1))
  = Scalar (Fin (gbm_price 100 0 0 0 1))
  /\ bsm (Fin 100) (Fin 0) (Fin 0) (Fin 0) (Array (map Fin [1; 2]%R))
     = Array (map (fun z => Fin (gbm_price 100 0 0 0 z)) [1; 2]%R).
Proof.
  destruct bsm_returns_terminal_price as (_ & _ & Hs & Hv).
  split; [apply Hs | apply Hv]; lra.
Defined.

(** C4.  The element at index [i] of the batched result equals the scalar
    result on the [i]-th draw, whatever the arithmetic (so bit for bit),
    and it depends on no other draw: the batch has as many elements as
    there are draws, and two batches that agree at [i] give the same
    element at [i]. *)
Theorem bsm_batch_is_elementwise {F : Type} `{Arith F}
  (s_0 r sigma t : F) (zs : list F) (i : nat) (z : F) :
  nth_error zs i = Some z ->
  item (bsm s_0 r sigma t (Array zs)) i
  = item (bsm s_0 r sigma t (Scalar z)) 0
  /\ length (elements (bsm s_0 r sigma t (Array zs))) = length zs
  /\ (forall zs' : list F,
         nth_error zs' i = Some z ->
         item (bsm s_0 r sigma t (Array zs')) i
         = item (bsm s_0 r sigma t (Array zs)) i).
Proof.
  intros Hi. repeat split.
  - rewrite !bsm_item. unfold item; simpl. now rewrite Hi.
  - rewrite bsm_elements. simpl. apply length_map.
  - intros zs' Hi'. rewrite !bsm_item. unfold item; simpl.
    now rewrite Hi, Hi'.
Qed.

Lemma bsm_batch_is_elementwise_witness :
  item (bsm (Fin 100) (Fin 0) (Fin 1) (Fin 1) (Array [Fin 1; Fin 2])) 1
  = item (bsm (Fin 100) (Fin 0) (Fin 1) (Fin 1) (Scalar (Fin 2))) 0.
Proof.
  refine (proj1 (@bsm_batch_is_elementwise num _ (Fin 100) (Fin 0) (Fin 1)
                   (Fin 1) [Fin 1; Fin 2] 1%nat (Fin 2) _)).
  reflexivity.
Defined.



(** ** The pricing interface *)

(** C2.  For a positive spot, strike, volatility and maturity and any
    rate, the closed-form evaluator returns
    [Phi(d1) * S0 - Phi(d2) * K * exp(-r t)] with
    [d1 = (ln(S0/K) + (r + sigma^2/2) t) / (sigma sqrt t)] and
    [d2 = d1 - sigma sqrt t], where [Phi] is the distribution function of
    the standard normal density, and the only one. *)
Theorem call_returns_closed_form {W : Type} (S0 r sigma t K : R) (w : W) :
  (0 < S0)%R -> (0 < K)%R -> (0 < sigma)%R -> (0 < t)%R ->
  let Phi := standard_normal_cdf in
  let D1 := ((ln (S0 / K) + (r + sigma ^ 2 / 2) * t) / (sigma * sqrt t))%R in
  let D2 := (D1 - sigma * sqrt t)%R in
  call S0 r sigma t K w
  = (Returns (Fin (Phi D1 * S0 - Phi D2 * K * exp (- r * t))%R), w)
  /\ is_cdf_of std_normal_pdf Phi
  /\ (forall F : R -> R,
         is_cdf_of std_normal_pdf F -> forall x : R, F x = Phi x).
Proof.
  intros HS HK Hv Ht Phi D1 D2. repeat split.
  - now rewrite call_valid.
  - apply standard_normal_cdf_spec.
  - apply standard_normal_cdf_spec.
  - intros F HF x.
    now apply cdf_unique; [| apply standard_normal_cdf_spec].
Qed.

Lemma call_returns_closed_form_witness :
  call 100 (3 / 100) (4 / 10) (3 / 12) 105 world0
  = (Returns
       (Fin (standard_normal_cdf
               ((ln (100 / 105) + (3 / 100 + (4 / 10) ^ 2 / 2) * (3 / 12))
                / (4 / 10 * sqrt (3 / 12))) * 100
             - standard_normal_cdf
                 ((ln (100 / 105) + (3 / 100 + (4 / 10) ^ 2 / 2) * (3 / 12))
                  / (4 / 10 * sqrt (3 / 12)) - 4 / 10 * sqrt (3 / 12))
               * 105 * exp (- (3 / 100) * (3 / 12)))%R),
     world0).
Proof.
  refine (proj1 (@call_returns_closed_form world 100 (3 / 100) (4 / 10)
                   (3 / 12) 105 world0 _ _ _ _)); lra.
Defined.

(** C5.  For a positive spot, strike, volatility and maturity and a sample
    count of at least one, the closed-form price and the Monte Carlo
    estimate are both returned, and neither is negative, whatever the
    draws of the generator. *)
Theorem call_prices_nonnegative (s_0 r sigma t k : R) (n : Z) :
  (0 < s_0)%R -> (0 < k)%R -> (0 < sigma)%R -> (0 < t)%R -> (1 <= n)%Z ->
  (forall w : world,
      exists v : R,
        call s_0 r sigma t k w = (Returns (Fin v), w) /\ (0 <= v)%R)
  /\ (forall w : world,
         exists (v : R) (w' : world),
           monte_carlo_call_price s_0 r sigma t k n w = (Returns (Fin v), w')
           /\ (0 <= v)%R).
Proof.
  intros Hs Hk Hv Ht Hn. split; intros w.
  - exists (call_formula s_0 r sigma t k). split.
    + now apply call_valid.
    + now apply call_formula_nonneg.
  - destruct (@option_value_nonneg r t k
                (map (bsm1 (Fin s_0) (Fin r) (Fin sigma) (Fin t))
                   (draws w (Z.to_nat n)))) as (v & Ev & Hv0).
    + apply bsm_elements_positive; [exact Hs | lra | apply draws_finite].
    + rewrite length_map, draws_length. lia.
    + exists v, (advance (Z.to_nat n) w). split; [| exact Hv0].
      rewrite monte_carlo_valid by assumption. now rewrite Ev.
Qed.

Lemma call_prices_nonnegative_witness :
  (exists v : R,
      call 100 (3 / 100) (4 / 10) (3 / 12) 105 world0
      = (Returns (Fin v), world0) /\ (0 <= v)%R)
  /\ (exists (v : R) (w' : world),
         monte_carlo_call_price 100 (3 / 100) (4 / 10) (3 / 12) 105 1 world0
         = (Returns (Fin v), w') /\ (0 <= v)%R).
Proof.
  destruct (@call_prices_nonnegative 100 (3 / 100) (4 / 10) (3 / 12) 105 1)
    as [Hc Hm]; try lra; try lia.
  split; [apply Hc | apply Hm].
Defined.

(** C7.  With a volatility or a maturity equal to zero, the closed-form
    evaluator raises [InvalidParameter] and returns no value at all, so
    no not-a-number or infinity; the divisor of [d1] would be zero. *)
Theorem call_rejects_zero_volatility_or_maturity {W : Type}
  (s r sigma t k : R) (w : W) :
  sigma = 0%R \/ t = 0%R ->
  call s r sigma t k w = (Raises InvalidParameter, w)
  /\ (forall v : num, fst (call s r sigma t k w) <> Returns v)
  /\ (sigma * sqrt t = 0)%R.
Proof.
  intros H0.
  assert (E : call s r sigma t k w = (Raises InvalidParameter, w)).
  { apply call_invalid. destruct H0; lra. }
  repeat split.
  - exact E.
  - intros v. rewrite E. discriminate.
  - destruct H0 as [-> | ->]; [| rewrite sqrt_0]; ring.
Qed.

Lemma call_rejects_zero_volatility_or_maturity_witness :
  call 100 (3 / 100) 0 (3 / 12) 105 world0 = (Raises InvalidParameter, world0)
  /\ call 100 (3 / 100) (4 / 10) 0 105 world0
     = (Raises InvalidParameter, world0).
Proof.
  split.
  - refine (proj1 (@call_rejects_zero_volatility_or_maturity world 100
                     (3 / 100) 0 (3 / 12) 105 world0 _)).
    left; reflexivity.
  - refine (proj1 (@call_rejects_zero_volatility_or_maturity world 100
                     (3 / 100) (4 / 10) 0 105 world0 _)).
    right; reflexivity.
Defined.

(** * Further properties of the code

    ** [bsm] on batches, for any arithmetic *)

(** X1.  Batches compose: the prices of a concatenation of draws are the
    prices of the parts, concatenated; the prices of the reversed draws
    are the reversed prices; no draws give no prices. *)
Theorem bsm_of_concatenation {F : Type} `{Arith F}
  (s_0 r sigma t : F) (zs1 zs2 : list F) :
  bsm s_0 r sigma t (Array (zs1 ++ zs2))
  = Array (elements (bsm s_0 r sigma t (Array zs1))
           ++ elements (bsm s_0 r sigma t (Array zs2)))
  /\ bsm s_0 r sigma t (Array (rev zs1))
     = Array (rev (elements (bsm s_0 r sigma t (Array zs1))))
  /\ bsm s_0 r sigma t (Array []) = Array [].
Proof.
  rewrite !bsm_array. simpl. repeat split.
  - now rewrite map_app.
  - now rewrite map_rev.
Qed.

(** ** [bsm] on real numbers *)

Lemma bsm1_real (s_0 r sigma t z : R) :
  (0 <= t)%R ->
  bsm1 (Fin s_0) (Fin r) (Fin sigma) (Fin t) (Fin z)
  = Fin (gbm_price s_0 r sigma t z).
Proof.
  intros Ht. rewrite bsm1_terminal_price. now apply terminal_price_real.
Qed.




(** X4.  With a volatility of zero and a maturity [t >= 0] every price is
    [s_0 * exp(r t)], whatever the real draws. *)
Theorem bsm_zero_volatility (s_0 r t : R) (z : ndvalue num) :
  (0 <= t)%R -> Forall finite (elements z) ->
  elements (bsm (Fin s_0) (Fin r) (Fin 0) (Fin t) z)
  = map (fun _ => Fin (s_0 * exp (r * t))%R) (elements z).
Proof.
  intros Ht Hz. rewrite bsm_elements.
  apply map_ext_in. intros x Hx.
  rewrite Forall_forall in Hz. specialize (Hz x Hx).
  destruct x as [x |]; [| contradiction].
  rewrite bsm1_real by exact Ht. unfold gbm_price.
  replace ((r - 0 ^ 2 / 2) * t + 0 * sqrt t * x)%R with (r * t)%R by field.
  reflexivity.
Qed.

Lemma bsm_zero_volatility_witness :
  elements (bsm (Fin 100) (Fin (3 / 100)) (Fin 0) (Fin 1)
              (Array [Fin 1; Fin (-2)]))
  = map (fun _ => Fin (100 * exp (3 / 100 * 1))%R) [Fin 1; Fin (-2)].
Proof.
  apply (@bsm_zero_volatility 100 (3 / 100) 1 (Array [Fin 1; Fin (-2)])).
  - lra.
  - repeat constructor.
Defined.

(** X9.  A negative volatility is accepted and acts as the positive one
    on the negated draws: [bsm(s_0, r, -sigma, t, z)] equals
    [bsm(s_0, r, sigma, t, -z)]. *)
Theorem bsm_negative_volatility (s_0 r sigma t : num) (z : ndvalue num) :
  bsm s_0 r (num_opp sigma) t z = bsm s_0 r sigma t (ufunc num_opp z).
Proof.
  assert (E : forall x : num,
             bsm1 s_0 r (num_opp sigma) t x
             = bsm1 s_0 r sigma t (num_opp x)).
  { intros x. unfold bsm1.
    destruct s_0 as [s |], r as [r |], sigma as [v |], t as [t |],
      x as [x |]; simpl; try reflexivity;
      try (destruct (Rcase_abs t); reflexivity).
    destruct (Rcase_abs t); simpl; [reflexivity |].
    do 3 f_equal. ring. }
  destruct z as [z | zs].
  - cbn [ufunc]. rewrite !bsm_scalar. now rewrite E.
  - cbn [ufunc]. rewrite !bsm_array, map_map. f_equal.
    apply map_ext. exact E.
Qed.

(** ** The cells that call [bsm] *)

(** X10.  Whatever the state of the generator, the two printing cells
    raise nothing, take exactly one, respectively ten, draws from the
    generator, keep the earlier output, and print one strictly positive
    price, respectively one array of ten strictly positive prices. *)
Theorem cells_print_positive_prices (w : world) :
  (exists p : R,
      cell_scalar w
      = (Returns tt,
         {| rng_stream := rng_stream w;
            rng_pos := rng_pos w + 1;
            stdout := stdout w ++ [Scalar (Fin p)] |})
      /\ (0 < p)%R)
  /\ (exists ps : list num,
         cell_vector w
         = (Returns tt,
            {| rng_stream := rng_stream w;
               rng_pos := rng_pos w + 10;
               stdout := stdout w ++ [Array ps] |})
         /\ length ps = 10%nat
         /\ Forall positive ps).
Proof.
  split.
  - exists (gbm_price 100 (3 / 100) (4 / 10) (3 / 12)
              (rng_stream w (rng_pos w))).
    split.
    + rewrite cell_scalar_prints, bsm1_real by lra. reflexivity.
    + apply gbm_price_pos. lra.
  - eexists. split; [apply cell_vector_prints |]. split.
    + now rewrite length_map, draws_length.
    + apply bsm_elements_positive; [lra | lra | apply draws_finite].
Qed.

(** ** The plotting cells *)

Lemma plot_histogram_run (r sigma t : num) (s : session) :
  plot_histogram r sigma t s
  = (Returns tt,
     {| kernel := advance 1000 (kernel s);
        canvas :=
          canvas s
          ++ [PltFigure 7 4;
              PltHist
                (Array (map (bsm1 (Fin 100) r sigma t)
                          (draws (kernel s) 1000)))
                ["prices"%string] 25 "blue";
              PltGrid true;
              PltXlabel "price";
              PltYlabel "frequency";
              PltTitle "Histogram of simulated BSM prices"] |}).
Proof.
  unfold plot_histogram.
  generalize 1000%nat. intros n.
  unfold bind, in_kernel, standard_normal, call_bsm, ret, plt.
  cbn [kernel canvas]. rewrite bsm_array, <- !app_assoc. reflexivity.
Qed.

Lemma cell_histogram_run (s : session) :
  cell_histogram s
  = (Returns tt,
     {| kernel := advance (N.to_nat 1000000) (kernel s);
        canvas :=
          canvas s
          ++ [PltFigure 7 4;
              PltHist
                (Array (map (bsm1 (Fin 100) (Fin (3 / 100)) (Fin (4 / 10))
                               (Fin (3 / 12)))
                          (draws (kernel s) (N.to_nat 1000000))))
                ["prices"%string] 100 "blue";
              PltGrid true;
              PltXlabel "price";
              PltYlabel "frequency";
              PltTitle "Histogram of "] |}).
Proof.
  unfold cell_histogram.
  generalize (N.to_nat 1000000). intros n.
  unfold bind, in_kernel, standard_normal, call_bsm, ret, plt.
  cbn [kernel canvas]. rewrite bsm_array, <- !app_assoc. reflexivity.
Qed.

Lemma on_slider_min (s : slider) (v : R) :
  (0 <= slider_step s)%R -> on_slider s v -> (slider_min s <= v)%R.
Proof.
  intros Hstep (k & -> & _).
  assert (H := pos_INR k). nra.
Qed.

(** X12.  Every setting of the three sliders of [interact] has a rate of
    at least 0 and a volatility and a maturity of at least 0.01; and for
    every such setting [plot_histogram] raises nothing, takes exactly 1000
    draws from the generator, and sends to the figure, after what was
    there, the six commands of its body, with a histogram of 25 bins over
    1000 strictly positive prices. *)
Theorem sliders_stay_in_domain (r sigma t : R) (s : session) :
  on_slider slider_r r -> on_slider slider_sigma sigma ->
  on_slider slider_t t ->
  ((0 <= r)%R /\ (1 / 100 <= sigma)%R /\ (1 / 100 <= t)%R)
  /\ exists prices : list num,
       plot_histogram (Fin r) (Fin sigma) (Fin t) s
       = (Returns tt,
          {| kernel := advance 1000 (kernel s);
             canvas :=
               canvas s
               ++ [PltFigure 7 4;
                   PltHist (Array prices) ["prices"%string] 25 "blue";
                   PltGrid true;
                   PltXlabel "price";
                   PltYlabel "frequency";
                   PltTitle "Histogram of simulated BSM prices"] |})
       /\ length prices = 1000%nat
       /\ Forall positive prices.
Proof.
  intros Hr Hsigma Ht.
  assert (Hr1 := @on_slider_min slider_r r ltac:(simpl; lra) Hr).
  assert (Hs1 := @on_slider_min slider_sigma sigma ltac:(simpl; lra) Hsigma).
  assert (Ht1 := @on_slider_min slider_t t ltac:(simpl; lra) Ht).
  simpl in Hr1, Hs1, Ht1. split; [lra |].
  eexists. split; [apply plot_histogram_run |]. split.
  - now rewrite length_map, draws_length.
  - apply bsm_elements_positive; [lra | lra | apply draws_finite].
Qed.

Lemma sliders_stay_in_domain_witness :
  (0 <= 0 + INR 3 * (1 / 100))%R
  /\ (1 / 100 <= 1 / 100 + INR 2 * (1 / 100))%R
  /\ (1 / 100 <= 1 / 100 + INR 0 * (1 / 100))%R.
Proof.
  assert (H : on_slider slider_r (0 + INR 3 * (1 / 100))
              /\ on_slider slider_sigma (1 / 100 + INR 2 * (1 / 100))
              /\ on_slider slider_t (1 / 100 + INR 0 * (1 / 100))).
  { repeat split.
    - exists 3%nat. simpl. split; [reflexivity | lra].
    - exists 2%nat. simpl. split; [reflexivity | lra].
    - exists 0%nat. simpl. split; [reflexivity | lra]. }
  destruct H as (H1 & H2 & H3).
  exact (proj1 (@sliders_stay_in_domain _ _ _
                  {| kernel := world0; canvas := [] |} H1 H2 H3)).
Defined.

(** X13.  Whatever the state of the session, the histogram cell raises
    nothing, takes exactly 1000000 draws from the generator, and sends to
    the figure a histogram of 100 bins over 1000000 strictly positive
    prices, between the figure command and the grid, labels and title. *)
Theorem cell_histogram_positive_prices (s : session) :
  exists prices : list num,
    cell_histogram s
    = (Returns tt,
       {| kernel := advance (N.to_nat 1000000) (kernel s);
          canvas :=
            canvas s
            ++ [PltFigure 7 4;
                PltHist (Array prices) ["prices"%string] 100 "blue";
                PltGrid true;
                PltXlabel "price";
                PltYlabel "frequency";
                PltTitle "Histogram of "] |})
    /\ length prices = N.to_nat 1000000
    /\ Forall positive prices.
Proof.
  eexists. split; [apply cell_histogram_run |]. split.
  - now rewrite length_map, draws_length.
  - apply bsm_elements_positive; [lra | lra | apply draws_finite].
Qed.

(** * Binary64

    ** The classes of a number, through its specification *)

Lemma SFcompare_refl (x : spec_float) :
  x <> S754_nan -> SFcompare x x = Some Eq.
Proof.
  destruct x as [s | s | | s m e]; intros Hx; try congruence; simpl.
  - reflexivity.
  - now destruct s.
  - rewrite Z.compare_refl.
    destruct s; simpl; now rewrite Pos.compare_cont_refl.
Qed.

Lemma is_nan_spec (x : float) :
  is_nan x = match Prim2SF x with S754_nan => true | _ => false end.
Proof.
  unfold is_nan. rewrite FloatAxioms.eqb_spec. unfold SFeqb.
  destruct (Prim2SF x) eqn:E; try rewrite SFcompare_refl by congruence;
    reflexivity.
Qed.

Lemma is_zero_spec (x : float) :
  is_zero x = match Prim2SF x with S754_zero _ => true | _ => false end.
Proof.
  unfold is_zero. rewrite FloatAxioms.eqb_spec.
  change (Prim2SF zero) with (S754_zero false). unfold SFeqb.
  destruct (Prim2SF x) as [s | s | | s m e]; try reflexivity; now destruct s.
Qed.

Lemma is_infinity_spec (x : float) :
  is_infinity x
  = match Prim2SF x with S754_infinity _ => true | _ => false end.
Proof.
  unfold is_infinity. rewrite FloatAxioms.eqb_spec, abs_spec.
  change (Prim2SF infinity) with (S754_infinity false). unfold SFeqb.
  destruct (Prim2SF x) as [s | s | | s m e]; reflexivity.
Qed.

Lemma is_finite_spec (x : float) :
  is_finite x
  = match Prim2SF x with
    | S754_zero _ | S754_finite _ _ _ => true
    | _ => false
    end.
Proof.
  unfold is_finite. rewrite is_nan_spec, is_infinity_spec.
  destruct (Prim2SF x); reflexivity.
Qed.

(** ** Zeros *)

Lemma mul_zero_r (a u : float) :
  is_finite a = true -> is_zero u = true -> is_zero (a * u)%float = true.
Proof.
  rewrite is_finite_spec, !is_zero_spec, mul_spec. unfold SF64mul.
  destruct (Prim2SF a), (Prim2SF u); simpl; congruence.
Qed.

Lemma mul_zero_l (u z : float) :
  is_zero u = true -> is_finite z = true -> is_zero (u * z)%float = true.
Proof.
  rewrite is_finite_spec, !is_zero_spec, mul_spec. unfold SF64mul.
  destruct (Prim2SF u), (Prim2SF z); simpl; congruence.
Qed.

Lemma add_zeros (u v : float) :
  is_zero u = true -> is_zero v = true -> is_zero (u + v)%float = true.
Proof.
  rewrite !is_zero_spec, add_spec. unfold SF64add.
  destruct (Prim2SF u) as [su | | |], (Prim2SF v) as [sv | | |]; simpl;
    try congruence.
  now destruct su, sv.
Qed.

Lemma sqrt_zero (t : float) :
  is_zero t = true -> is_zero (PrimFloat.sqrt t) = true.
Proof.
  rewrite !is_zero_spec, sqrt_spec. unfold SF64sqrt.
  destruct (Prim2SF t); simpl; congruence.
Qed.


(** ** Signs *)



(** ** Multiplication by one *)

Lemma shr_exact_52 (m : BinNums.positive) (e : Z) :
  shr (shr_record_of_loc (Z.pos (4503599627370496 * m)) loc_Exact) e 52
  = ({| shr_m := Z.pos m; shr_r := false; shr_s := false |}, (e + 52)%Z).
Proof. reflexivity. Qed.

Lemma digits2_shift_52 (m : BinNums.positive) :
  Z.pos (digits2_pos (4503599627370496 * m))
  = (Z.pos (digits2_pos m) + 52)%Z.
Proof. cbn [Pos.mul digits2_pos]. lia. Qed.

Lemma SFmul_one (s : bool) (m : BinNums.positive) (e : Z) :
  valid_binary (S754_finite s m e) = true ->
  SF64mul (S754_finite s m e) (Prim2SF 1) = S754_finite s m e.
Proof.
  intros Hv. simpl in Hv. unfold bounded, canonical_mantissa in Hv.
  apply andb_prop in Hv. destruct Hv as [Hc Hb].
  apply Z.eqb_eq in Hc.
  change (Prim2SF 1) with (S754_finite false 4503599627370496 (-52)).
  unfold SF64mul, SFmul. rewrite Bool.xorb_false_r, (Pos.mul_comm m).
  unfold binary_round_aux, shr_fexp at 1.
  cbn [Zdigits2]. rewrite digits2_shift_52.
  replace (Z.pos (digits2_pos m) + 52 + (e + -52))%Z
    with (Z.pos (digits2_pos m) + e)%Z by lia.
  rewrite Hc.
  replace (e - (e + -52))%Z with 52%Z by lia.
  rewrite shr_exact_52. cbn [shr_m loc_of_shr_record round_nearest_even].
  replace (e + -52 + 52)%Z with e by lia.
  unfold shr_fexp. cbn [Zdigits2]. rewrite Hc, Z.sub_diag.
  cbn [shr shr_record_of_loc shr_m]. now rewrite Hb.
Qed.

Lemma mul_one_r (x : float) : (x * 1)%float = x.
Proof.
  apply Prim2SF_inj. rewrite mul_spec.
  assert (Hv := Prim2SF_valid x).
  destruct (Prim2SF x) as [s | s | | s m e] eqn:E.
  - change (Prim2SF 1) with (S754_finite false 4503599627370496 (-52)).
    simpl. now rewrite Bool.xorb_false_r.
  - change (Prim2SF 1) with (S754_finite false 4503599627370496 (-52)).
    simpl. now rewrite Bool.xorb_false_r.
  - reflexivity.
  - now apply SFmul_one.
Qed.

(** ** The platform with a constant exponential *)

Lemma skeleton_exp_zero (x : float) :
  is_zero x = true -> skeleton_exp x = 1%float.
Proof.
  rewrite is_zero_spec. unfold skeleton_exp.
  rewrite is_nan_spec, !leb_spec.
  destruct (Prim2SF x); try discriminate. reflexivity.
Qed.

Lemma skeleton_exp_underflow_spec (x : float) :
  (x <=? -746)%float = true -> skeleton_exp x = 0%float.
Proof.
  intros Hx. unfold skeleton_exp. rewrite Hx.
  rewrite is_nan_spec. rewrite leb_spec in Hx.
  destruct (Prim2SF x); try reflexivity. discriminate.
Qed.

Lemma skeleton_exp_overflow_spec (x : float) :
  (710 <=? x)%float = true -> skeleton_exp x = infinity.
Proof.
  intros Hx. unfold skeleton_exp. rewrite Hx.
  rewrite is_nan_spec, leb_spec. rewrite leb_spec in Hx.
  let c := eval vm_compute in (Prim2SF 710) in
  change (Prim2SF 710) with c in Hx.
  let c := eval vm_compute in (Prim2SF (-746)) in
  change (Prim2SF (-746)) with c.
  destruct (Prim2SF x) as [s | s | | s m e]; try discriminate.
  - now destruct s.
  - destruct s; [discriminate | reflexivity].
Qed.

Lemma skeleton_exp_not_negative (x : float) :
  (skeleton_exp x <? 0)%float = false.
Proof.
  unfold skeleton_exp.
  destruct (is_nan x); [reflexivity |].
  destruct (x <=? -746)%float; [reflexivity |].
  destruct (710 <=? x)%float; reflexivity.
Qed.

Lemma skeleton_exp_underflow_finite (x : float) :
  skeleton_exp_underflow x = true -> is_finite x = true.
Proof.
  unfold skeleton_exp_underflow. intros H.
  now apply andb_prop in H.
Qed.

Lemma skeleton_mul_underflow_finite (x y : float) :
  skeleton_mul_underflow x y = true ->
  is_finite x = true /\ is_finite y = true.
Proof.
  unfold skeleton_mul_underflow. intros H.
  repeat (apply andb_prop in H; destruct H as [H ?]). now split.
Qed.

Definition skeleton : platform := {|
  libm_exp := skeleton_exp;
  exp_nan := eq_refl;
  exp_zero := skeleton_exp_zero;
  exp_underflow := skeleton_exp_underflow_spec;
  exp_overflow := skeleton_exp_overflow_spec;
  exp_not_negative := skeleton_exp_not_negative;
  exp_signals_underflow := skeleton_exp_underflow;
  mul_signals_underflow := skeleton_mul_underflow;
  exp_underflow_finite := skeleton_exp_underflow_finite;
  mul_underflow_finite := skeleton_mul_underflow_finite
|}.

(** ** [bsm] on binary64 *)

Lemma bsm64_scalar (P : platform) (s_0 r sigma t z : float) :
  bsm64 P s_0 r sigma t (Scalar z)
  = Scalar (s_0 * libm_exp P (exponent64 r sigma t z))%float.
Proof. reflexivity. Qed.

Lemma bsm64_elements (P : platform) (s_0 r sigma t : float)
  (z : ndvalue float) :
  elements (bsm64 P s_0 r sigma t z)
  = map (fun zi => (s_0 * libm_exp P (exponent64 r sigma t zi))%float)
      (elements z).
Proof. unfold bsm64. now rewrite bsm_elements. Qed.


Lemma bsm64_ufunc (P : platform) (s_0 r sigma t : float)
  (z : ndvalue float) :
  bsm64 P s_0 r sigma t z
  = ufunc (fun zi => (s_0 * libm_exp P (exponent64 r sigma t zi))%float) z.
Proof.
  unfold bsm64. destruct z as [z | zs].
  - reflexivity.
  - now rewrite bsm_array.
Qed.

(** At a maturity of zero the exponent is a zero, when the drift rate and
    the volatility are finite and the draw is. *)
Lemma exponent64_zero_maturity (r sigma t z : float) :
  is_zero t = true ->
  is_finite (r - 0.5 * sigma * sigma)%float = true ->
  is_finite sigma = true -> is_finite z = true ->
  is_zero (exponent64 r sigma t z) = true.
Proof.
  intros Ht Hr Hv Hz. unfold exponent64.
  apply add_zeros.
  - now apply mul_zero_r.
  - apply mul_zero_l; [| exact Hz].
    apply mul_zero_r; [exact Hv | now apply sqrt_zero].
Qed.

(** * NumPy's error handling in [bsm] *)

Lemma report_all_app (l1 l2 : list fp_event) (s : np_state) :
  report_all (l1 ++ l2) s = (_ <~ report_all l1 ;; report_all l2) s.
Proof.
  revert s. induction l1 as [| ev l1 IH]; intros s.
  - reflexivity.
  - cbn [app report_all]. unfold np_bind.
    destruct (report ev s) as [[[] | e] s1]; [| reflexivity].
    rewrite IH. reflexivity.
Qed.

Lemma bind_reports {A B : Type} (evs rest : list fp_event) (a : A)
  (k : A -> NP B) (v : B) (s : np_state) :
  (forall s' : np_state,
      k a s' = (_ <~ report_all rest ;; np_ret v) s') ->
  (x <~ (_ <~ report_all evs ;; np_ret a) ;; k x) s
  = (_ <~ report_all (evs ++ rest) ;; np_ret v) s.
Proof.
  intros Hk. unfold np_bind at 1 2 3. rewrite report_all_app.
  unfold np_bind at 1.
  destruct (report_all evs s) as [[[] | e] s1]; [| reflexivity].
  cbn [np_ret]. rewrite Hk. reflexivity.
Qed.

(** A call of [bsm] reports, one after the other, the errors of its
    operations, and returns the binary64 value of the formula if none of
    the reports raises. *)
Lemma run_bsm_reports (P : platform) (s_0 r sigma t : float)
  (z : ndvalue float) (s : np_state) :
  run_bsm P s_0 r sigma t z s
  = (_ <~ report_all (fp_events P s_0 r sigma t z) ;;
     np_ret (bsm64 P s_0 r sigma t z)) s.
Proof.
  unfold run_bsm, fp_events, checked_sqrt, checked_multiply_scalar,
    checked_multiply, checked_add, checked_exp.
  cbv zeta.
  change (bsm64 P s_0 r sigma t z)
    with (broadcast PrimFloat.mul s_0
            (ufunc (libm_exp P)
               (broadcast PrimFloat.add ((r - 0.5 * sigma * sigma) * t)%float
                  (broadcast PrimFloat.mul (sigma * PrimFloat.sqrt t)%float
                     z)))).
  apply bind_reports. intros s1.
  apply bind_reports. intros s2.
  apply bind_reports. intros s3.
  apply bind_reports. intros s4.
  apply bind_reports. intros s5.
  reflexivity.
Qed.

Lemma np_state_eta (s : np_state) :
  {| errstate := errstate s; warned := warned s ++ [] |} = s.
Proof. destruct s. cbn. now rewrite app_nil_r. Qed.

(** Reports never touch the settings; they add warnings, taken from the
    errors reported, and raise only for an error in a category set to
    [raise]. *)
Lemma report_all_outcome (evs : list fp_event) (s : np_state) :
  exists ws : list fp_event,
    incl ws evs
    /\ (report_all evs s
        = (PyReturns tt,
           {| errstate := errstate s; warned := warned s ++ ws |})
        \/ exists ev : fp_event,
             In ev evs
             /\ mode_of (errstate s) (ev_error ev) = Raise
             /\ report_all evs s
                = (PyRaises ev,
                   {| errstate := errstate s; warned := warned s ++ ws |})).
Proof.
  revert s. induction evs as [| ev evs IH]; intros s.
  - exists []. split; [apply incl_refl |]. left.
    cbn. unfold np_ret. now rewrite np_state_eta.
  - cbn [report_all]. unfold np_bind, report.
    destruct (mode_of (errstate s) (ev_error ev)) eqn:Hmode.
    + destruct (IH s) as (ws & Hincl & [Hret | (ev' & Hin & Hm & Hraise)]).
      * exists ws. split; [now apply incl_tl |]. now left.
      * exists ws. split; [now apply incl_tl |]. right.
        exists ev'. repeat split; [now right | exact Hm | exact Hraise].
    + destruct (IH {| errstate := errstate s; warned := warned s ++ [ev] |})
        as (ws & Hincl & H).
      cbn [errstate warned] in H. rewrite <- app_assoc in H.
      exists (ev :: ws). split.
      * intros x [-> | Hx]; [now left | right; now apply Hincl].
      * destruct H as [Hret | (ev' & Hin & Hm & Hraise)]; [now left |].
        right. exists ev'.
        repeat split; [now right | exact Hm | exact Hraise].
    + exists []. split; [apply incl_nil_l |]. right. exists ev.
      repeat split; [now left | exact Hmode |]. now rewrite np_state_eta.
Qed.

Lemma report_all_no_raise (evs : list fp_event) (s : np_state) :
  (forall e : fp_error, mode_of (errstate s) e <> Raise) ->
  exists ws : list fp_event,
    incl ws evs
    /\ report_all evs s
       = (PyReturns tt,
          {| errstate := errstate s; warned := warned s ++ ws |}).
Proof.
  intros Hno.
  destruct (report_all_outcome evs s)
    as (ws & Hincl & [Hret | (ev & _ & Hm & _)]).
  - now exists ws.
  - now apply Hno in Hm.
Qed.



(** * The claims about the call on binary64 *)








Lemma bsm64_overflow_at_zero_maturity (P : platform) :
  bsm64 P 100 0 0x1.4e718d7d7625ap+664 0 (Scalar 1%float) = Scalar nan.
Proof.
  rewrite bsm64_scalar.
  change (exponent64 0 0x1.4e718d7d7625ap+664 0 1) with nan.
  rewrite (exp_nan P). reflexivity.
Qed.

(** C10, as the code has it.  On binary64 arguments, when no category of
    NumPy's error settings is set to [raise] (none is by default), [bsm]
    raises nothing, whatever the signs of the spot and the volatility and
    whatever the maturity: the call returns the binary64 value of
    [s_0 * exp((r - 0.5 sigma sigma) t + sigma sqrt(t) z)], and changes
    nothing but the warnings issued.  At a maturity of zero the value is
    exactly [s_0], for every finite draw and every finite volatility for
    which [r - 0.5 sigma sigma] is finite. *)
Theorem bsm_returns_unless_set_to_raise (P : platform)
  (s_0 r sigma t : float) (z : ndvalue float) (s : np_state) :
  ((forall e : fp_error, mode_of (errstate s) e <> Raise) ->
   exists ws : list fp_event,
     run_bsm P s_0 r sigma t z s
     = (PyReturns (bsm64 P s_0 r sigma t z),
        {| errstate := errstate s; warned := warned s ++ ws |}))
  /\ (is_zero t = true ->
      is_finite (r - 0.5 * sigma * sigma)%float = true ->
      is_finite sigma = true ->
      Forall (fun zi => is_finite zi = true) (elements z) ->
      bsm64 P s_0 r sigma t z = ufunc (fun _ => s_0) z).
Proof.
  split.
  - intros Hno.
    destruct (report_all_no_raise (fp_events P s_0 r sigma t z) s Hno)
      as (ws & _ & Hret).
    exists ws. rewrite run_bsm_reports. unfold np_bind. now rewrite Hret.
  - intros Ht Hr Hv Hz. rewrite bsm64_ufunc.
    assert (E : forall zi : float,
               In zi (elements z) ->
               (s_0 * libm_exp P (exponent64 r sigma t zi))%float = s_0).
    { intros zi Hin. rewrite Forall_forall in Hz.
      rewrite (exp_zero P).
      - apply mul_one_r.
      - apply exponent64_zero_maturity; auto. }
    destruct z as [z | zs]; cbn [ufunc].
    + f_equal. apply E. now left.
    + f_equal. apply map_ext_in. exact E.
Qed.

Lemma bsm_returns_unless_set_to_raise_witness :
  (exists ws : list fp_event,
      run_bsm skeleton (-100) 0 (-1) 0 (Scalar 2%float) np_state0
      = (PyReturns (bsm64 skeleton (-100) 0 (-1) 0 (Scalar 2%float)),
         {| errstate := errstate np_state0;
            warned := warned np_state0 ++ ws |}))
  /\ bsm64 skeleton (-100) 0 (-1) 0 (Scalar 2%float)
     = ufunc (fun _ => (-100)%float) (Scalar 2%float).
Proof.
  destruct (bsm_returns_unless_set_to_raise skeleton (-100) 0 (-1) 0
              (Scalar 2%float) np_state0) as [Hret Hzero].
  split.
  - apply Hret. intros e. destruct e; discriminate.
  - apply Hzero; try reflexivity. repeat constructor.
Defined.

(** C10, as stated, fails.  With the finite volatility 1e200 and a
    maturity of zero, [0.5 sigma sigma] overflows, the exponent is
    not-a-number and so is the price, on every platform: it is not the
    spot 100.  And with the category [over] set to [raise], the call with
    rate 1000 and maturity 1 raises, since [np.exp] overflows. *)
Lemma bsm_overflow_breaks_zero_maturity :
  ~ (forall P : platform,
        bsm64 P 100 0 0x1.4e718d7d7625ap+664 0 (Scalar 1%float)
        = Scalar 100%float)
  /\ fst (run_bsm skeleton 1 1000 0 1 (Scalar 0%float)
            {| errstate :=
                 {| on_divide := Warn; on_over := Raise;
                    on_under := Ignore; on_invalid := Warn |};
               warned := [] |})
     = PyRaises {| ev_error := FpOver; ev_op := OpExp |}.
Proof.
  split.
  - intros H. specialize (H skeleton).
    rewrite bsm64_overflow_at_zero_maturity in H.
    apply (f_equal (fun v => existsb is_nan (elements v))) in H.
    discriminate.
  - reflexivity.
Qed.

(** * Further properties of the call on binary64 *)

Lemma mul_nan_r (x : float) : (x * nan)%float = nan.
Proof.
  apply Prim2SF_inj. rewrite mul_spec.
  change (Prim2SF nan) with S754_nan. unfold SF64mul.
  now destruct (Prim2SF x).
Qed.

Lemma mul_nan_l (x : float) : (nan * x)%float = nan.
Proof.
  apply Prim2SF_inj. rewrite mul_spec.
  change (Prim2SF nan) with S754_nan. reflexivity.
Qed.

Lemma add_nan_r (x : float) : (x + nan)%float = nan.
Proof.
  apply Prim2SF_inj. rewrite add_spec.
  change (Prim2SF nan) with S754_nan. unfold SF64add.
  now destruct (Prim2SF x).
Qed.

Lemma sqrt_negative (t : float) :
  (t <? 0)%float = true -> PrimFloat.sqrt t = nan.
Proof.
  rewrite ltb_spec. intros Ht.
  apply Prim2SF_inj. rewrite sqrt_spec.
  change (Prim2SF nan) with S754_nan.
  change (Prim2SF 0) with (S754_zero false) in Ht. unfold SF64sqrt.
  destruct (Prim2SF t) as [s | s | | s m e]; try discriminate.
  - now destruct s.
  - now destruct s.
Qed.

Lemma mul_underflow_nan_r (P : platform) (x : float) :
  mul_signals_underflow P x nan = false.
Proof.
  destruct (mul_signals_underflow P x nan) eqn:E; [| reflexivity].
  apply mul_underflow_finite in E. destruct E as [_ E]. discriminate.
Qed.

Lemma mul_underflow_nan_l (P : platform) (x : float) :
  mul_signals_underflow P nan x = false.
Proof.
  destruct (mul_signals_underflow P nan x) eqn:E; [| reflexivity].
  apply mul_underflow_finite in E. destruct E as [E _]. discriminate.
Qed.

Lemma exp_underflow_nan (P : platform) : exp_signals_underflow P nan = false.
Proof.
  destruct (exp_signals_underflow P nan) eqn:E; [| reflexivity].
  apply exp_underflow_finite in E. discriminate.
Qed.

Lemma any_element_none (f : float -> bool) (v : ndvalue float) :
  (forall x : float, In x (elements v) -> f x = false) ->
  any_element f v = false.
Proof.
  intros Hf. unfold any_element.
  induction (elements v) as [| x xs IH]; [reflexivity |].
  cbn [existsb]. rewrite Hf by now left.
  apply IH. intros y Hy. apply Hf. now right.
Qed.

Lemma elements_ufunc_nan (z : ndvalue float) (x : float) :
  In x (elements (ufunc (fun _ : float => nan) z)) -> x = nan.
Proof.
  destruct z as [z | zs]; cbn [ufunc elements].
  - now intros [<- | []].
  - intros Hin. apply in_map_iff in Hin. now destruct Hin as (y & <- & _).
Qed.

Lemma ufunc_ext (f g : float -> float) (z : ndvalue float) :
  (forall x : float, f x = g x) -> ufunc f z = ufunc g z.
Proof.
  intros Hfg. destruct z as [z | zs]; cbn [ufunc].
  - now rewrite Hfg.
  - f_equal. apply map_ext. exact Hfg.
Qed.

Lemma ufunc_ufunc_nan (f : float -> float) (z : ndvalue float) :
  f nan = nan ->
  ufunc f (ufunc (fun _ : float => nan) z) = ufunc (fun _ => nan) z.
Proof.
  intros Hf. destruct z as [z | zs]; cbn [ufunc].
  - now rewrite Hf.
  - rewrite map_map. f_equal. apply map_ext. intros _. exact Hf.
Qed.

Lemma multiply_events_nan_r (P : platform) (x : float)
  (z : ndvalue float) :
  multiply_events P x (ufunc (fun _ => nan) z) = [].
Proof.
  unfold multiply_events.
  rewrite (any_element_none (mul_over x)),
    (any_element_none (mul_signals_underflow P x)),
    (any_element_none (mul_invalid x)); [reflexivity | ..];
    intros y Hy; apply elements_ufunc_nan in Hy; subst y.
  - unfold mul_invalid. rewrite mul_nan_r. apply Bool.andb_false_r.
  - apply mul_underflow_nan_r.
  - unfold mul_over. change (is_finite nan) with false.
    now rewrite Bool.andb_false_r.
Qed.

Lemma multiply_events_nan_l (P : platform) (z : ndvalue float) :
  multiply_events P nan z = [].
Proof.
  unfold multiply_events.
  rewrite (any_element_none (mul_over nan)),
    (any_element_none (mul_signals_underflow P nan)),
    (any_element_none (mul_invalid nan)); [reflexivity | ..];
    intros y Hy.
  - unfold mul_invalid. now rewrite mul_nan_l.
  - apply mul_underflow_nan_l.
  - reflexivity.
Qed.

Lemma add_events_nan (x : float) (z : ndvalue float) :
  add_events x (ufunc (fun _ => nan) z) = [].
Proof.
  unfold add_events.
  rewrite (any_element_none (add_over x)),
    (any_element_none (add_invalid x)); [reflexivity | ..];
    intros y Hy; apply elements_ufunc_nan in Hy; subst y.
  - unfold add_invalid. rewrite add_nan_r. apply Bool.andb_false_r.
  - unfold add_over. change (is_finite nan) with false.
    now rewrite Bool.andb_false_r.
Qed.

Lemma exp_events_nan (P : platform) (z : ndvalue float) :
  exp_events P (ufunc (fun _ => nan) z) = [].
Proof.
  unfold exp_events.
  rewrite (any_element_none (exp_over P)),
    (any_element_none (exp_signals_underflow P)); [reflexivity | ..];
    intros y Hy; apply elements_ufunc_nan in Hy; subst y.
  - apply exp_underflow_nan.
  - reflexivity.
Qed.

Lemma fp_events_negative_maturity (P : platform) (s_0 r sigma t : float)
  (z : ndvalue float) :
  (t <? 0)%float = true ->
  fp_events P s_0 r sigma t z = [{| ev_error := FpInvalid; ev_op := OpSqrt |}]
  /\ bsm64 P s_0 r sigma t z = ufunc (fun _ => nan) z.
Proof.
  intros Ht.
  assert (Hroot := sqrt_negative Ht).
  split.
  - unfold fp_events. cbv zeta. rewrite Hroot, mul_nan_r.
    change (Scalar nan) with (ufunc (fun _ : float => nan) (Scalar nan)).
    rewrite multiply_events_nan_r, multiply_events_nan_l.
    replace (broadcast PrimFloat.mul nan z) with (ufunc (fun _ => nan) z)
      by (apply ufunc_ext; intros x; now rewrite mul_nan_l).
    rewrite add_events_nan. unfold broadcast.
    rewrite (ufunc_ufunc_nan (PrimFloat.add _)) by apply add_nan_r.
    rewrite exp_events_nan.
    rewrite (ufunc_ufunc_nan (libm_exp P)) by apply exp_nan.
    rewrite multiply_events_nan_r.
    unfold sqrt_events, sqrt_invalid. now rewrite Ht.
  - rewrite bsm64_ufunc. apply ufunc_ext. intros x.
    unfold exponent64.
    now rewrite Hroot, mul_nan_r, mul_nan_l, add_nan_r, exp_nan, mul_nan_r.
Qed.

(** X14.  On binary64, with a negative maturity and the category
    [invalid] set to [warn] (as by default), the call returns
    not-a-number for every draw and issues exactly one warning, for the
    invalid value in [np.sqrt], whatever the other arguments and the
    other settings; with the category set to [raise] the call raises
    [FloatingPointError] for it and issues no warning. *)
Theorem run_bsm_negative_maturity (P : platform) (s_0 r sigma t : float)
  (z : ndvalue float) (s : np_state) :
  (t <? 0)%float = true ->
  (on_invalid (errstate s) = Warn ->
   run_bsm P s_0 r sigma t z s
   = (PyReturns (ufunc (fun _ => nan) z),
      {| errstate := errstate s;
         warned :=
           warned s ++ [{| ev_error := FpInvalid; ev_op := OpSqrt |}] |}))
  /\ (on_invalid (errstate s) = Raise ->
      run_bsm P s_0 r sigma t z s
      = (PyRaises {| ev_error := FpInvalid; ev_op := OpSqrt |}, s)).
Proof.
  intros Ht.
  destruct (fp_events_negative_maturity P s_0 r sigma z Ht) as [Hev Hval].
  split; intros Hmode; rewrite run_bsm_reports, Hev, Hval;
    unfold np_bind; cbn [report_all]; unfold np_bind, report;
    cbn [ev_error mode_of]; rewrite Hmode; reflexivity.
Qed.

Lemma run_bsm_negative_maturity_witness :
  run_bsm skeleton 100 0 1 (-1) (Array [0; 1]%float) np_state0
  = (PyReturns (Array [nan; nan]),
     {| errstate := default_errmodes;
        warned := [{| ev_error := FpInvalid; ev_op := OpSqrt |}] |}).
Proof.
  refine (proj1 (@run_bsm_negative_maturity skeleton 100 0 1 (-1)
                   (Array [0; 1]%float) np_state0 _) _);
    reflexivity.
Defined.
